(** * bowl: a single-file HTML parser and its lazily built indexes

    A shallow embedding of [lib/bowl.py].  Python objects live in a heap
    (a list indexed by address), so that the references held by the
    open-element stack and by the indexes alias the nodes of the tree, as
    they do in the interpreter.  Methods are computations in a state and
    exception monad in which the state survives a raised exception. *)

From Stdlib Require Import ZArith Ascii.
From stdpp Require Import base option list strings gmap pretty.

(** ** The Python runtime the module relies on *)

Module Py.

(** The exceptions the code can raise.  [NoSuchObject] is not a Python
    exception: it marks the use of an address that holds no object, which
    no Python program can produce. *)
Inductive exn :=
| NameError | IndexError | TypeError | AssertionError | RecursionError
| NoSuchObject.

Inductive outcome (A : Type) :=
| Ret (a : A)
| Raise (e : exn).
Arguments Ret {A} a.
Arguments Raise {A} e.

(** A computation over a mutable state [S]: the state is returned in both
    outcomes, mutations made before a [raise] stay. *)
Definition M (S A : Type) : Type := S → S * outcome A.

Definition ret {S A} (a : A) : M S A := λ s, (s, Ret a).
Definition raise {S A} (e : exn) : M S A := λ s, (s, Raise e).
Definition bind {S A B} (m : M S A) (k : A → M S B) : M S B :=
  λ s, match m s with
       | (s', Ret a) => k a s'
       | (s', Raise e) => (s', Raise e)
       end.
Definition get {S} : M S S := λ s, (s, Ret s).
Definition modify {S} (f : S → S) : M S unit := λ s, (f s, Ret tt).
(** An optional value that Python would always have. *)
Definition expect {S A} (e : exn) (o : option A) : M S A :=
  match o with Some a => ret a | None => raise e end.

Global Instance M_ret {S} : MRet (M S) := λ A, ret.
Global Instance M_bind {S} : MBind (M S) := λ A B k m, bind m k.

(** [for x in l: body x] *)
Fixpoint for_each {S A} (l : list A) (body : A → M S unit) : M S unit :=
  match l with
  | [] => ret tt
  | x :: l' => body x ;; for_each l' body
  end.

(** Attribute values.  The parser stores [str] and [None]; the class
    index also accepts a list, here of strings, and, through [str()],
    anything else, of which integers are kept here. *)
Inductive obj :=
| PyNone
| PyStr (s : string)
| PyList (l : list string)
| PyInt (z : Z).

(** [bool(v)] *)
Definition truthy (v : obj) : bool :=
  match v with
  | PyNone => false
  | PyStr s => negb (String.eqb s "")
  | PyList l => match l with [] => false | _ => true end
  | PyInt z => negb (Z.eqb z 0)
  end.

(** Lists are the unhashable values: using one as a dict key raises
    TypeError. *)
Definition hashable (v : obj) : bool :=
  match v with PyList _ => false | _ => true end.

Global Instance obj_eq_dec : EqDecision obj.
Proof. solve_decision. Defined.

Global Instance obj_countable : Countable obj.
Proof.
  refine (inj_countable'
    (λ v, match v with
          | PyNone => inl (inl ())
          | PyStr s => inl (inr s)
          | PyList l => inr (inl l)
          | PyInt z => inr (inr z)
          end)
    (λ e, match e with
          | inl (inl _) => PyNone
          | inl (inr s) => PyStr s
          | inr (inl l) => PyList l
          | inr (inr z) => PyInt z
          end) _).
  by intros [].
Defined.

(** A [dict] with [str] keys whose iteration order matters: an
    association list in insertion order, each key once. *)
Definition dict (V : Type) : Type := list (string * V).

(** [d.get(k)] *)
Fixpoint dict_get {V} (k : string) (d : dict V) : option V :=
  match d with
  | [] => None
  | (k', v) :: d' => if String.eqb k k' then Some v else dict_get k d'
  end.

(** [d[k] = v]: an existing key keeps its place. *)
Fixpoint dict_set {V} (k : string) (v : V) (d : dict V) : dict V :=
  match d with
  | [] => [(k, v)]
  | (k', v') :: d' =>
      if String.eqb k k' then (k, v) :: d' else (k', v') :: dict_set k v d'
  end.

(** Strings.  A [str] is held as the bytes of its UTF-8 encoding, which
    keeps equality, concatenation and the ASCII characters as they are;
    a character outside ASCII takes two to four bytes. *)

(** The whitespace characters of the ASCII range: tab, LF, VT, FF, CR,
    FS, GS, RS, US and space. *)
Definition isspace (c : ascii) : bool :=
  let n := nat_of_ascii c in
  ((9 <=? n) && (n <=? 13)) || ((28 <=? n) && (n <=? 32)).

(** The third byte of a whitespace character that starts with the bytes
    [b0] and [b1]: U+1680, U+2000 to U+200A, U+2028, U+2029, U+202F, U+205F
    and U+3000. *)
Definition isspace_3 (b0 b1 b2 : nat) : bool :=
  ((b0 =? 225) && (b1 =? 154) && (b2 =? 128))
  || ((b0 =? 226) && (b1 =? 128)
      && (((128 <=? b2) && (b2 <=? 138))
          || (b2 =? 168) || (b2 =? 169) || (b2 =? 175)))
  || ((b0 =? 226) && (b1 =? 129) && (b2 =? 159))
  || ((b0 =? 227) && (b1 =? 128) && (b2 =? 128)).

(** The number of bytes of the whitespace character that [s] starts with,
    0 when it starts with none.  These are the characters on which
    [str.isspace] holds: those of the ASCII range, U+0085 and U+00A0 in two
    bytes, and the three-byte ones. *)
Definition whitespace_length (s : string) : nat :=
  match s with
  | EmptyString => 0
  | String c0 s0 =>
      if isspace c0 then 1
      else match s0 with
           | EmptyString => 0
           | String c1 s1 =>
               let b0 := nat_of_ascii c0 in
               let b1 := nat_of_ascii c1 in
               if (b0 =? 194) && ((b1 =? 133) || (b1 =? 160)) then 2
               else match s1 with
                    | EmptyString => 0
                    | String c2 _ =>
                        if isspace_3 b0 b1 (nat_of_ascii c2) then 3 else 0
                    end
           end
  end.

(** [s.split()]: the maximal runs of non-whitespace characters, in
    order.  [cur] is the run being read and [skip] the number of bytes
    left of the whitespace character being passed. *)
Fixpoint split_from (skip : nat) (cur : string) (s : string) : list string :=
  match s with
  | EmptyString => if String.eqb cur "" then [] else [cur]
  | String c s' =>
      match skip with
      | S skip' => split_from skip' cur s'
      | O =>
          match whitespace_length s with
          | O => split_from 0 (cur +:+ String c EmptyString) s'
          | S skip' =>
              if String.eqb cur "" then split_from skip' "" s'
              else cur :: split_from skip' "" s'
          end
      end
  end.
Definition split (s : string) : list string := split_from 0 "" s.


(** [s.lower()] on the ASCII range. *)
Definition lower_ascii (c : ascii) : ascii :=
  let n := nat_of_ascii c in
  if (65 <=? n) && (n <=? 90) then ascii_of_nat (n + 32) else c.
Fixpoint lower (s : string) : string :=
  match s with
  | EmptyString => EmptyString
  | String c s' => String (lower_ascii c) (lower s')
  end.

(** The characters [\n] and the double quote. *)
Definition newline : string := String (ascii_of_nat 10) EmptyString.
Definition dquote : string := String (ascii_of_nat 34) EmptyString.

(** [sep.join(parts)] *)
Fixpoint join (sep : string) (parts : list string) : string :=
  match parts with
  | [] => ""
  | [p] => p
  | p :: ps => p +:+ sep +:+ join sep ps
  end.

(** [s * n] for a string [s] *)
Fixpoint repeat_str (s : string) (n : nat) : string :=
  match n with
  | O => ""
  | S n' => s +:+ repeat_str s n'
  end.

End Py.
Import Py.

(** ** Nodes, the heap and the index fields *)

(** The address of a [DOMNode] object. *)
Abbreviation addr := nat.

(** An element of [children]: a node, by reference, or a text leaf. *)
Inductive child :=
| ChildNode (a : addr)
| ChildText (s : string).

(** The six index fields that [DOMNode] and [DOMDocument] both declare.
    The maps hold references to nodes. *)
Record indexes := mk_indexes {
  _has_id_index : bool;
  _id_to_node_map : gmap obj addr;
  _has_tag_index : bool;
  _tag_to_node_map : gmap string (list addr);
  _has_class_index : bool;
  _class_to_node_map : gmap string (list addr)
}.

(** The fields as [__init__] leaves them. *)
Definition no_indexes : indexes := mk_indexes false ∅ false ∅ false ∅.

Definition set_has_id_index (b : bool) (ix : indexes) : indexes :=
  mk_indexes b (_id_to_node_map ix) (_has_tag_index ix) (_tag_to_node_map ix)
             (_has_class_index ix) (_class_to_node_map ix).
Definition set_id_to_node_map (m : gmap obj addr) (ix : indexes) : indexes :=
  mk_indexes (_has_id_index ix) m (_has_tag_index ix) (_tag_to_node_map ix)
             (_has_class_index ix) (_class_to_node_map ix).
Definition set_has_tag_index (b : bool) (ix : indexes) : indexes :=
  mk_indexes (_has_id_index ix) (_id_to_node_map ix) b (_tag_to_node_map ix)
             (_has_class_index ix) (_class_to_node_map ix).
Definition set_tag_to_node_map (m : gmap string (list addr)) (ix : indexes)
  : indexes :=
  mk_indexes (_has_id_index ix) (_id_to_node_map ix) (_has_tag_index ix) m
             (_has_class_index ix) (_class_to_node_map ix).
Definition set_has_class_index (b : bool) (ix : indexes) : indexes :=
  mk_indexes (_has_id_index ix) (_id_to_node_map ix) (_has_tag_index ix)
             (_tag_to_node_map ix) b (_class_to_node_map ix).
Definition set_class_to_node_map (m : gmap string (list addr)) (ix : indexes)
  : indexes :=
  mk_indexes (_has_id_index ix) (_id_to_node_map ix) (_has_tag_index ix)
             (_tag_to_node_map ix) (_has_class_index ix) m.

(** [if k not in m: m[k] = []] followed by [m[k].append(a)] *)
Definition append_under (k : string) (a : addr) (m : gmap string (list addr))
  : gmap string (list addr) :=
  let m1 := match m !! k with None => <[k := []]> m | Some _ => m end in
  match m1 !! k with
  | Some l => <[k := l ++ [a]]> m1
  | None => m1
  end.

(** The tokens under which [_build_class_index] files a node whose
    [class] attribute is the truthy value [class_attr]. *)
Definition classes_of (class_attr : obj) : list string :=
  match class_attr with
  | PyStr s => split s
  | PyList l => l
  | PyNone => ["None"]
  | PyInt z => [pretty z]
  end.

Module DOMNode.

Record t := mk {
  tag : string;
  attrs : dict obj;
  children : list child;
  index : indexes
}.

(** The interpreter's heap, as far as nodes go. *)
Abbreviation heap := (list t).

Definition set_children (cs : list child) (n : t) : t :=
  mk (tag n) (attrs n) cs (index n).
Definition set_index (ix : indexes) (n : t) : t :=
  mk (tag n) (attrs n) (children n) ix.

(** [DOMNode(tag, attrs, children)]: the object [__init__] fills in, put
    at a fresh address. *)
Definition __init__ (tag : string) (attrs : dict obj)
    (children : option (list child)) : t :=
  mk tag attrs (default [] children) no_indexes.
Definition new (n : t) : M heap addr := λ h, (h ++ [n], Ret (length h)).

Definition deref (a : addr) : M heap t :=
  h ← get; expect NoSuchObject (h !! a).

Definition append_child (self : addr) (c : child) : M heap unit :=
  n ← deref self;
  modify (λ h, <[self := set_children (children n ++ [c]) n]> h).

(** The index methods mutate the index fields of [self] only and read
    the tag, attributes and children of the nodes they visit, which they
    never write: they are computations on the index fields of [self]
    over the heap [h].  [limit] is the interpreter's recursion limit. *)
Fixpoint _build_tag_index (limit : nat) (h : heap) (self node : addr)
  : M indexes unit :=
  match limit with
  | O => raise RecursionError
  | S limit' =>
      n ← expect NoSuchObject (h !! node);
      modify (λ ix, set_tag_to_node_map
                      (append_under (tag n) node (_tag_to_node_map ix)) ix);;
      for_each (children n) (λ c,
        match c with
        | ChildNode c => _build_tag_index limit' h self c
        | ChildText _ => ret ()
        end);;
      if decide (node = self) then modify (set_has_tag_index true)
      else ret ()
  end.

Fixpoint _build_id_index (limit : nat) (h : heap) (self node : addr)
  : M indexes unit :=
  match limit with
  | O => raise RecursionError
  | S limit' =>
      n ← expect NoSuchObject (h !! node);
      let id_attr := default PyNone (dict_get "id" (attrs n)) in
      (if truthy id_attr then
         if hashable id_attr then
           modify (λ ix, set_id_to_node_map
                           (<[id_attr := node]> (_id_to_node_map ix)) ix)
         else raise TypeError
       else ret ());;
      for_each (children n) (λ c,
        match c with
        | ChildNode c => _build_id_index limit' h self c
        | ChildText _ => ret ()
        end);;
      if decide (node = self) then modify (set_has_id_index true)
      else ret ()
  end.

Fixpoint _build_class_index (limit : nat) (h : heap) (self node : addr)
  : M indexes unit :=
  match limit with
  | O => raise RecursionError
  | S limit' =>
      n ← expect NoSuchObject (h !! node);
      let class_attr := default PyNone (dict_get "class" (attrs n)) in
      (if truthy class_attr then
         for_each (classes_of class_attr) (λ class_name,
           modify (λ ix, set_class_to_node_map
                    (append_under class_name node (_class_to_node_map ix))
                    ix))
       else ret ());;
      for_each (children n) (λ c,
        match c with
        | ChildNode c => _build_class_index limit' h self c
        | ChildText _ => ret ()
        end);;
      if decide (node = self) then modify (set_has_class_index true)
      else ret ()
  end.

(** Run a computation on the index fields of the object at [self]. *)
Definition on_index {A} (self : addr) (m : heap → M indexes A) : M heap A :=
  λ h, match h !! self with
       | Some n =>
           let '(ix, r) := m h (index n) in (<[self := set_index ix n]> h, r)
       | None => (h, Raise NoSuchObject)
       end.

Definition get_by_tag (limit : nat) (self : addr) (name : string)
  : M heap (option (list addr)) :=
  n ← deref self;
  (if negb (_has_tag_index (index n))
   then on_index self (λ h, _build_tag_index limit h self self)
   else ret ());;
  n ← deref self;
  ret (_tag_to_node_map (index n) !! name).

Definition get_by_id (limit : nat) (self : addr) (name : string)
  : M heap (option addr) :=
  n ← deref self;
  (if negb (_has_id_index (index n))
   then on_index self (λ h, _build_id_index limit h self self)
   else ret ());;
  n ← deref self;
  ret (_id_to_node_map (index n) !! PyStr name).

Definition get_by_class_name (limit : nat) (self : addr) (name : string)
  : M heap (option (list addr)) :=
  n ← deref self;
  (if negb (_has_class_index (index n))
   then on_index self (λ h, _build_class_index limit h self self)
   else ret ());;
  n ← deref self;
  ret (_class_to_node_map (index n) !! name).

(** [_render]: [repr_list] is the interpreter's [str()] of a list of
    strings, which the f-string applies to such an attribute value. *)
Section Render.
Variable repr_list : list string → string.

(** [f"{value}"] *)
Definition format_value (value : obj) : string :=
  match value with
  | PyNone => "None"
  | PyStr s => s
  | PyList l => repr_list l
  | PyInt z => pretty z
  end.

(** The results of the calls in a loop, up to the first that raises. *)
Fixpoint all_of (rs : list (outcome string)) : outcome (list string) :=
  match rs with
  | [] => Ret []
  | Ret x :: rs' =>
      match all_of rs' with Ret xs => Ret (x :: xs) | Raise e => Raise e end
  | Raise e :: _ => Raise e
  end.

Fixpoint _render (limit : nat) (h : heap) (self : addr) (indent : nat)
  : outcome string :=
  match limit with
  | O => Raise RecursionError
  | S limit' =>
      match h !! self with
      | None => Raise NoSuchObject
      | Some n =>
          let space := repeat_str "  " indent in
          let attrs :=
            join " " (map (λ kv, fst kv +:+ "=" +:+ dquote
                                   +:+ format_value (snd kv) +:+ dquote)
                          (attrs n)) in
          let open_tag :=
            "<" +:+ tag n
                +:+ (if String.eqb attrs "" then "" else " " +:+ attrs)
                +:+ ">" in
          let close_tag := "</" +:+ tag n +:+ ">" in
          match all_of (map (λ c,
                  match c with
                  | ChildNode c => _render limit' h c (S indent)
                  | ChildText s => Ret (repeat_str "  " (S indent) +:+ s)
                  end) (children n)) with
          | Ret rendered =>
              Ret (join newline
                     ([space +:+ open_tag] ++ rendered
                                           ++ [space +:+ close_tag]))
          | Raise e => Raise e
          end
      end
  end.
(** [__str__] *)
Definition __str__ (limit : nat) (h : heap) (self : addr) : outcome string :=
  _render limit h self 0.

(** [__repr__]: the open tag alone. *)
Definition __repr__ (h : heap) (self : addr) : outcome string :=
  match h !! self with
  | None => Raise NoSuchObject
  | Some n =>
      let attrs :=
        map (λ kv, fst kv +:+ "=" +:+ dquote
                     +:+ format_value (snd kv) +:+ dquote)
            (attrs n) in
      if 0 <? length attrs
      then Ret ("<" +:+ tag n +:+ " " +:+ join " " attrs +:+ ">")
      else Ret ("<" +:+ tag n +:+ ">")
  end.

(** [inner_text]: [str(child)] is the child itself for a text and
    [child.__str__()] for a node. *)
Definition inner_text (limit : nat) (h : heap) (self : addr)
  : outcome string :=
  match h !! self with
  | None => Raise NoSuchObject
  | Some n =>
      match all_of (map (λ c,
              match c with
              | ChildNode c => __str__ limit h c
              | ChildText s => Ret s
              end) (children n)) with
      | Ret parts => Ret (join "" parts)
      | Raise e => Raise e
      end
  end.
End Render.

End DOMNode.

Abbreviation heap := DOMNode.heap.

Module DOMDocument.

Record t := mk {
  root : addr;
  page_title : option string;
  index : indexes
}.

Definition set_index (ix : indexes) (d : t) : t :=
  mk (root d) (page_title d) ix.

Definition __init__ (root : addr) (page_title : option string) : t :=
  mk root page_title no_indexes.

(** The document's copies of the index methods: [self] is the document,
    of which the methods read [root] and write the index fields. *)
Fixpoint _build_tag_index (limit : nat) (h : heap) (self_root node : addr)
  : M indexes unit :=
  match limit with
  | O => raise RecursionError
  | S limit' =>
      n ← expect NoSuchObject (h !! node);
      modify (λ ix, set_tag_to_node_map
                      (append_under (DOMNode.tag n) node
                                    (_tag_to_node_map ix)) ix);;
      for_each (DOMNode.children n) (λ c,
        match c with
        | ChildNode c => _build_tag_index limit' h self_root c
        | ChildText _ => ret ()
        end);;
      if decide (node = self_root) then modify (set_has_tag_index true)
      else ret ()
  end.

Fixpoint _build_id_index (limit : nat) (h : heap) (self_root node : addr)
  : M indexes unit :=
  match limit with
  | O => raise RecursionError
  | S limit' =>
      n ← expect NoSuchObject (h !! node);
      let id_attr := default PyNone (dict_get "id" (DOMNode.attrs n)) in
      (if truthy id_attr then
         if hashable id_attr then
           modify (λ ix, set_id_to_node_map
                           (<[id_attr := node]> (_id_to_node_map ix)) ix)
         else raise TypeError
       else ret ());;
      for_each (DOMNode.children n) (λ c,
        match c with
        | ChildNode c => _build_id_index limit' h self_root c
        | ChildText _ => ret ()
        end);;
      if decide (node = self_root) then modify (set_has_id_index true)
      else ret ()
  end.

Fixpoint _build_class_index (limit : nat) (h : heap) (self_root node : addr)
  : M indexes unit :=
  match limit with
  | O => raise RecursionError
  | S limit' =>
      n ← expect NoSuchObject (h !! node);
      let class_attr :=
        default PyNone (dict_get "class" (DOMNode.attrs n)) in
      (if truthy class_attr then
         for_each (classes_of class_attr) (λ class_name,
           modify (λ ix, set_class_to_node_map
                    (append_under class_name node (_class_to_node_map ix))
                    ix))
       else ret ());;
      for_each (DOMNode.children n) (λ c,
        match c with
        | ChildNode c => _build_class_index limit' h self_root c
        | ChildText _ => ret ()
        end);;
      if decide (node = self_root) then modify (set_has_class_index true)
      else ret ()
  end.

(** Run a computation on the index fields of the document. *)
Definition on_index {A} (m : M indexes A) : M t A :=
  λ d, let '(ix, r) := m (index d) in (set_index ix d, r).

Definition get_by_tag (limit : nat) (h : heap) (name : string)
  : M t (option (list addr)) :=
  self ← get;
  (if negb (_has_tag_index (index self))
   then on_index (_build_tag_index limit h (root self) (root self))
   else ret ());;
  self ← get;
  ret (_tag_to_node_map (index self) !! name).

Definition get_by_id (limit : nat) (h : heap) (name : string)
  : M t (option addr) :=
  self ← get;
  (if negb (_has_id_index (index self))
   then on_index (_build_id_index limit h (root self) (root self))
   else ret ());;
  self ← get;
  ret (_id_to_node_map (index self) !! PyStr name).

Definition get_by_class_name (limit : nat) (h : heap) (name : string)
  : M t (option (list addr)) :=
  self ← get;
  (if negb (_has_class_index (index self))
   then on_index (_build_class_index limit h (root self) (root self))
   else ret ());;
  self ← get;
  ret (_class_to_node_map (index self) !! name).

End DOMDocument.

(** ** The tree builder *)

(** The set bound to the module-level name [_VOID_TAGS]. *)
Definition _VOID_TAGS : gset string :=
  list_to_set ["area"; "base"; "br"; "col"; "embed"; "hr"; "img";
               "input"; "link"; "meta"; "source"; "track"; "wbr"].

(** The module's global names that are bound to a set of tags.  No other
    scope binds such a name: the builtins have none and the handlers have
    no local of that kind. *)
Definition module_globals : dict (gset string) :=
  [("_VOID_TAGS", _VOID_TAGS)].

(** Reading a global name: NameError when the name is not bound. *)
Definition global {S} (name : string) : M S (gset string) :=
  expect NameError (dict_get name module_globals).

(** The calls that [HTMLParser.feed] makes on the handlers this module
    overrides.  The tokenizer is the standard library's; a source text is
    taken as the sequence of calls it makes on it when it reads the text to
    its end.  An attribute without a value comes with [None].

    On some texts the tokenizer raises an exception of its own, after the
    calls for what it has read: AssertionError on a marked section with
    an unknown keyword, such as [<![x]>].  [feed] is the reading that the
    tokenizer completes; [feed_stopped] below is the reading that may end
    with such an exception. *)
Inductive event :=
| StartTag (tag : string) (attrs : list (string * option string))
| EndTag (tag : string)
| Data (data : string)
| Comment (data : string)
| EntityRef (name : string)
| CharRef (name : string)
| Decl (data : string).

Module _CustomHTMLParser.

(** The parser object, with the heap that holds the nodes it refers
    to. *)
Record t := mk {
  nodes : heap;
  source : list event;
  root_node : addr;
  title : option string;
  node_stack : list addr
}.

Definition set_nodes (h : heap) (p : t) : t :=
  mk h (source p) (root_node p) (title p) (node_stack p).
Definition set_title (o : option string) (p : t) : t :=
  mk (nodes p) (source p) (root_node p) o (node_stack p).
Definition set_node_stack (st : list addr) (p : t) : t :=
  mk (nodes p) (source p) (root_node p) (title p) st.

(** A computation on the heap, run from a method of the parser. *)
Definition on_heap {A} (m : M heap A) : M t A :=
  λ p, let '(h, r) := m (nodes p) in (set_nodes h p, r).

Definition __init__ (h : heap) (source : list event) : t :=
  let '(h', _) := DOMNode.new (DOMNode.__init__ "DOCUMENT_ROOT" [] None) h in
  mk h' source (length h) None [length h].

(** [self.node_stack[-1]] *)
Definition top_of_stack : M t addr :=
  self ← get; expect IndexError (last (node_stack self)).

Definition handle_starttag (tag : string)
    (attrs : list (string * option string)) : M t unit :=
  let dom_attrs :=
    foldl (λ d kv, dict_set (fst kv) (from_option PyStr PyNone (snd kv)) d)
          [] attrs in
  dom ← on_heap (DOMNode.new (DOMNode.__init__ tag dom_attrs None));
  top ← top_of_stack;
  on_heap (DOMNode.append_child top (ChildNode dom));;
  void_tags ← global "VOID_TAGS";
  if bool_decide (tag ∉ void_tags)
  then modify (λ self, set_node_stack (node_stack self ++ [dom]) self)
  else ret ().

Definition handle_endtag (tag : string) : M t unit :=
  top ← top_of_stack;
  n ← on_heap (DOMNode.deref top);
  if String.eqb tag (DOMNode.tag n)
  then modify (λ self, set_node_stack (removelast (node_stack self)) self)
  else ret ().

Definition handle_data (data : string) : M t unit :=
  self ← get;
  if 0 <? length (node_stack self) then
    top ← top_of_stack;
    n ← on_heap (DOMNode.deref top);
    (if String.eqb (DOMNode.tag n) "title"
        && bool_decide (title self = None)
     then modify (set_title (Some data))
     else ret ());;
    top ← top_of_stack;
    on_heap (DOMNode.append_child top (ChildText data))
  else ret ().

Definition handle_comment (data : string) : M t unit := ret ().
Definition handle_entityref (name : string) : M t unit := ret ().
Definition handle_charref (name : string) : M t unit := ret ().
Definition handle_decl (data : string) : M t unit := ret ().

(** One call of the tokenizer. *)
Definition handle (ev : event) : M t unit :=
  match ev with
  | StartTag tag attrs => handle_starttag tag attrs
  | EndTag tag => handle_endtag tag
  | Data data => handle_data data
  | Comment data => handle_comment data
  | EntityRef name => handle_entityref name
  | CharRef name => handle_charref name
  | Decl data => handle_decl data
  end.

(** [self.feed(source)] *)
Definition feed (source : list event) : M t unit := for_each source handle.

Definition accumulate : M t addr :=
  self ← get;
  feed (source self);;
  self ← get;
  bottom ← expect IndexError (node_stack self !! 0);
  if decide (root_node self = bottom) then ret (root_node self)
  else raise AssertionError.

(** [self.feed(source)] on a text that the tokenizer may give up on:
    [stop] is the exception that [HTMLParser] raises itself once it has
    made the calls [source], if it raises one. *)
Definition feed_stopped (source : list event) (stop : option exn)
  : M t unit :=
  feed source;;
  match stop with Some e => raise e | None => ret () end.

(** [accumulate] on such a text. *)
Definition accumulate_stopped (stop : option exn) : M t addr :=
  self ← get;
  feed_stopped (source self) stop;;
  self ← get;
  bottom ← expect IndexError (node_stack self !! 0);
  if decide (root_node self = bottom) then ret (root_node self)
  else raise AssertionError.

End _CustomHTMLParser.
Import _CustomHTMLParser.

(** [parse_document]: a [DOMNode] object is always true, so that the test
    [if root:] holds whenever [accumulate] returns. *)
Definition parse_document (source : list event) : M heap DOMDocument.t :=
  λ h,
    let parser := _CustomHTMLParser.__init__ h source in
    match _CustomHTMLParser.accumulate parser with
    | (parser', Ret root) =>
        (_CustomHTMLParser.nodes parser',
         Ret (DOMDocument.__init__ root (_CustomHTMLParser.title parser')))
    | (parser', Raise e) => (_CustomHTMLParser.nodes parser', Raise e)
    end.

(** [parse_document] on a text that the tokenizer may give up on, with
    the exception [stop] after the calls [source]. *)
Definition parse_document_stopped (source : list event) (stop : option exn)
  : M heap DOMDocument.t :=
  λ h,
    let parser := _CustomHTMLParser.__init__ h source in
    match _CustomHTMLParser.accumulate_stopped stop parser with
    | (parser', Ret root) =>
        (_CustomHTMLParser.nodes parser',
         Ret (DOMDocument.__init__ root (_CustomHTMLParser.title parser')))
    | (parser', Raise e) => (_CustomHTMLParser.nodes parser', Raise e)
    end.

(** ** Notions the statements use *)

(** The node lists of the subtrees hanging from the children [cs], one
    after the other; [visit] lists one subtree. *)
Fixpoint forest (visit : addr → option (list addr)) (cs : list child)
  : option (list addr) :=
  match cs with
  | [] => Some []
  | ChildNode c :: cs' =>
      l ← visit c; r ← forest visit cs'; Some (l ++ r)
  | ChildText _ :: cs' => forest visit cs'
  end.

(** Document order: the nodes of the subtree at [a], the node first, then
    the subtrees of its children from left to right.  Defined when the
    subtree is no deeper than [limit] and all its references hold a node. *)
Fixpoint subtree (limit : nat) (h : heap) (a : addr) : option (list addr) :=
  match limit with
  | O => None
  | S limit' =>
      n ← h !! a;
      r ← forest (subtree limit' h) (DOMNode.children n);
      Some (a :: r)
  end.

(** [node.attrs.get(key)] for the node at [a]. *)
Definition attr_at (key : string) (h : heap) (a : addr) : obj :=
  match h !! a with
  | Some n => default PyNone (dict_get key (DOMNode.attrs n))
  | None => PyNone
  end.

(** The tag of the node at [a]. *)
Definition tag_at (h : heap) (a : addr) : option string :=
  DOMNode.tag <$> h !! a.

(** The class tokens of the node at [a], as the class index reads them. *)
Definition tokens_at (h : heap) (a : addr) : list string :=
  let class_attr := attr_at "class" h a in
  if truthy class_attr then classes_of class_attr else [].

(** What [dict.get] gives for a key whose entries, in order, are [l]. *)
Definition nonempty {A} (l : list A) : option (list A) :=
  match l with [] => None | _ => Some l end.

(** The tokenizer lowercases the name of an end tag before it calls
    [handle_endtag]. *)
Definition lowercased (ev : event) : Prop :=
  match ev with
  | EndTag tag => ∃ raw, tag = lower raw
  | _ => True
  end.

(** The shape the three index builders share: visit the node, walk the
    children, and mark the index as built on the way out of [self]. *)
Section Walk.
Variable visit : DOMNode.t → addr → M indexes unit.
Variable finish : M indexes unit.

Fixpoint walk (limit : nat) (h : heap) (self node : addr)
  : M indexes unit :=
  match limit with
  | O => raise RecursionError
  | S limit' =>
      n ← expect NoSuchObject (h !! node);
      visit n node;;
      for_each (DOMNode.children n) (λ c,
        match c with
        | ChildNode c => walk limit' h self c
        | ChildText _ => ret ()
        end);;
      if decide (node = self) then finish else ret ()
  end.
End Walk.

(** What each builder does at one node. *)
Definition visit_tag (n : DOMNode.t) (node : addr) : M indexes unit :=
  modify (λ ix, set_tag_to_node_map
                  (append_under (DOMNode.tag n) node (_tag_to_node_map ix)) ix).

Definition visit_id (n : DOMNode.t) (node : addr) : M indexes unit :=
  let id_attr := default PyNone (dict_get "id" (DOMNode.attrs n)) in
  if truthy id_attr then
    if hashable id_attr then
      modify (λ ix, set_id_to_node_map
                      (<[id_attr := node]> (_id_to_node_map ix)) ix)
    else raise TypeError
  else ret ().

Definition visit_class (n : DOMNode.t) (node : addr) : M indexes unit :=
  let class_attr := default PyNone (dict_get "class" (DOMNode.attrs n)) in
  if truthy class_attr then
    for_each (classes_of class_attr) (λ class_name,
      modify (λ ix, set_class_to_node_map
               (append_under class_name node (_class_to_node_map ix)) ix))
  else ret ().

(** ** Further notions, for the statements and the proofs *)

(** The effect [fin] of the final marking, applied or not. *)
Definition mark (fin : indexes → indexes) (b : bool) (ix : indexes)
  : indexes :=
  if b then fin ix else ix.

(** The pure effects [vis] of the visits of the nodes of [l], in order. *)
Definition visits (vis : addr → indexes → indexes) (ix : indexes)
    (l : list addr) : indexes :=
  foldl (λ ix a, vis a ix) ix l.

(** The visits of the nodes of [l] neither raise nor depend on anything
    but the node: they have the effect [vis]. *)
Definition visits_return (visit : DOMNode.t → addr → M indexes unit)
    (vis : addr → indexes → indexes) (h : heap) (l : list addr) : Prop :=
  ∀ a n ix, a ∈ l → h !! a = Some n → visit n a ix = (vis a ix, Ret ()).

(** The identifiers of the nodes of [l] can be dict keys. *)
Definition hashable_ids (h : heap) (l : list addr) : Prop :=
  ∀ a, a ∈ l → truthy (attr_at "id" h a) = true →
       hashable (attr_at "id" h a) = true.

(** The map after the entries [ps], pairs of a key and a node, have been
    filed in order. *)
Definition filed (m : gmap string (list addr)) (ps : list (string * addr))
  : gmap string (list addr) :=
  foldl (λ m p, append_under (fst p) (snd p) m) m ps.

(** The nodes that [ps] files under [k], in order. *)
Definition under (k : string) (ps : list (string * addr)) : list addr :=
  snd <$> filter (λ p, fst p = k) ps.

Definition vis_tag (h : heap) (a : addr) (ix : indexes) : indexes :=
  match h !! a with
  | Some n =>
      set_tag_to_node_map
        (append_under (DOMNode.tag n) a (_tag_to_node_map ix)) ix
  | None => ix
  end.

Definition tag_entries (h : heap) (l : list addr) : list (string * addr) :=
  omap (λ a, (λ t, (t, a)) <$> tag_at h a) l.

Definition vis_class (h : heap) (a : addr) (ix : indexes) : indexes :=
  foldl (λ ix class_name,
           set_class_to_node_map
             (append_under class_name a (_class_to_node_map ix)) ix)
        ix (tokens_at h a).

Definition class_entries (h : heap) (l : list addr) : list (string * addr) :=
  l ≫= (λ a, (λ c, (c, a)) <$> tokens_at h a).

(** The node [a], once for each occurrence of [c] among its tokens. *)
Definition occurrences (c : string) (h : heap) (a : addr) : list addr :=
  replicate (length (filter (λ k, k = c) (tokens_at h a))) a.

Definition vis_id (h : heap) (a : addr) (ix : indexes) : indexes :=
  let id_attr := attr_at "id" h a in
  if truthy id_attr
  then set_id_to_node_map (<[id_attr := a]> (_id_to_node_map ix)) ix
  else ix.

(** The shape the three queries of a node share. *)
Definition node_query {R} (flag : indexes → bool)
    (build : heap → M indexes unit) (cached : indexes → R) (self : addr)
  : M heap R :=
  n ← DOMNode.deref self;
  (if negb (flag (DOMNode.index n)) then DOMNode.on_index self build
   else ret ());;
  n ← DOMNode.deref self;
  ret (cached (DOMNode.index n)).

(** The shape the three queries of a document share. *)
Definition doc_query {R} (flag : indexes → bool)
    (build : addr → M indexes unit) (cached : indexes → R)
  : M DOMDocument.t R :=
  self ← get;
  (if negb (flag (DOMDocument.index self))
   then DOMDocument.on_index (build (DOMDocument.root self))
   else ret ());;
  self ← get;
  ret (cached (DOMDocument.index self)).

(** A small tree to run the queries on:
    [<div id="a"><p id="a" class="x y"></p>t<p class=["x"]><br class=7></p></div>] *)
Definition example_heap : heap :=
  [ DOMNode.__init__ "div" [("id", PyStr "a")]
      (Some [ChildNode 1; ChildText "t"; ChildNode 2]);
    DOMNode.__init__ "p" [("id", PyStr "a"); ("class", PyStr "x y")] None;
    DOMNode.__init__ "p" [("class", PyList ["x"])] (Some [ChildNode 3]);
    DOMNode.__init__ "br" [("class", PyInt 7)] None ].



(** The law of C8 for a query of a node: a query that returns leaves the
    built flag set; from then on the query answers from the cached map,
    whatever the heap holds besides the index fields of the node and
    whatever the recursion limit, and leaves the heap as it is; appending a
    child anywhere does not change the answers. *)
Definition node_index_cached {R} (query : nat → addr → string → M heap R)
    (flag : indexes → bool) (cached : indexes → string → R) : Prop :=
  ∀ (limit : nat) (h : heap) (self : addr) (name : string) (h1 : heap)
    (r : R),
    query limit self name h = (h1, Ret r) →
    ∃ n1, h1 !! self = Some n1 ∧ flag (DOMNode.index n1) = true ∧
      r = cached (DOMNode.index n1) name ∧
      (∀ (h2 : heap) (n2 : DOMNode.t) (limit' : nat) (name' : string),
          h2 !! self = Some n2 → DOMNode.index n2 = DOMNode.index n1 →
          query limit' self name' h2 =
          (h2, Ret (cached (DOMNode.index n1) name'))) ∧
      (∀ (b : addr) (c : child) (h2 : heap) (limit' : nat) (name' : string),
          DOMNode.append_child b c h1 = (h2, Ret ()) →
          snd (query limit' self name' h2) =
          snd (query limit' self name' h1)).

(** The law of C8 for a query of a document, which reads the heap it is
    given. *)
Definition document_index_cached {R}
    (query : nat → heap → string → M DOMDocument.t R)
    (flag : indexes → bool) (cached : indexes → string → R) : Prop :=
  ∀ (limit : nat) (h : heap) (name : string) (d d1 : DOMDocument.t) (r : R),
    query limit h name d = (d1, Ret r) →
    flag (DOMDocument.index d1) = true ∧
    r = cached (DOMDocument.index d1) name ∧
    (∀ (h2 : heap) (limit' : nat) (name' : string),
        query limit' h2 name' d1 =
        (d1, Ret (cached (DOMDocument.index d1) name'))).

(** The heap after [example_heap]'s root has answered a tag query, and
    after the second [p] has then been appended to the root once more. *)
Definition example_heap_indexed : heap :=
  fst (DOMNode.get_by_tag 3 0 "p" example_heap).
Definition example_heap_grown : heap :=
  fst (DOMNode.append_child 0 (ChildNode 2) example_heap_indexed).

(** The attribute dict that [handle_starttag] fills. *)
Definition dom_attrs_of (attrs : list (string * option string)) : dict obj :=
  foldl (λ d kv, dict_set (fst kv) (from_option PyStr PyNone (snd kv)) d)
        [] attrs.

(** The heap after [handle_starttag] has created the node and appended it
    to the node [n] at the top of the stack. *)
Definition nodes_after_starttag (h : heap) (top : addr) (n : DOMNode.t)
    (tag : string) (attrs : list (string * option string)) : heap :=
  <[top := DOMNode.set_children
             (DOMNode.children n ++ [ChildNode (length h)]) n]>
    (h ++ [DOMNode.__init__ tag (dom_attrs_of attrs) None]).

(** What holds of the parser all along: the stack starts with the root,
    which keeps its tag, and holds references to nodes. *)
Record stack_rooted (root : addr) (p : t) : Prop := {
  rooted_root : root_node p = root;
  rooted_bottom : node_stack p !! 0 = Some root;
  rooted_tag : tag_at (nodes p) root = Some "DOCUMENT_ROOT";
  rooted_valid : Forall (λ a, a < length (nodes p)) (node_stack p)
}.

Definition is_start_tag (ev : event) : bool :=
  match ev with StartTag _ _ => true | _ => false end.

(** A parser with [<div>] open below the root. *)
Definition example_parser : _CustomHTMLParser.t :=
  _CustomHTMLParser.mk
    [DOMNode.__init__ "DOCUMENT_ROOT" [] (Some [ChildNode 1]);
     DOMNode.__init__ "div" [] None]
    [] 0 None [0; 1].

Definition example_source : list event :=
  [Data "a"; EndTag "p"; Comment "c"; EndTag "document_root"].

(** Nothing is ever pushed: the stack is the root alone and no title is
    recorded. *)
Record only_root (root : addr) (p : t) : Prop := {
  only_stack : node_stack p = [root];
  only_tag : tag_at (nodes p) root = Some "DOCUMENT_ROOT";
  only_title : title p = None;
  only_root_node : root_node p = root
}.

(** ** Notions for the further properties *)

(** No reference of the heap dangles: every child that is a node is an
    object of the heap, as in every state of the interpreter. *)
Definition closed (h : heap) : Prop :=
  ∀ a n c, h !! a = Some n → ChildNode c ∈ DOMNode.children n →
           is_Some (h !! c).

(** The text leaves that the calls before the first start tag leave in
    the root. *)
Fixpoint leading_children (source : list event) : list child :=
  match source with
  | [] => []
  | StartTag _ _ :: _ => []
  | Data data :: source' => ChildText data :: leading_children source'
  | _ :: source' => leading_children source'
  end.

(** The first start tag of the source. *)
Fixpoint first_start_tag (source : list event)
  : option (string * list (string * option string)) :=
  match source with
  | [] => None
  | StartTag tag attrs :: _ => Some (tag, attrs)
  | _ :: source' => first_start_tag source'
  end.

(** The value that [handle_starttag] stores for the key [key] when the
    tokenizer passes the attributes [attrs]: that of its last
    occurrence. *)
Definition last_value (key : string) (attrs : list (string * option string))
  : option obj :=
  (λ kv, from_option PyStr PyNone (snd kv))
    <$> last (filter (λ kv, fst kv = key) attrs).

(** The fields of each kind of index. *)
Definition tag_fields (ix : indexes) : bool * gmap string (list addr) :=
  (_has_tag_index ix, _tag_to_node_map ix).
Definition id_fields (ix : indexes) : bool * gmap obj addr :=
  (_has_id_index ix, _id_to_node_map ix).
Definition class_fields (ix : indexes) : bool * gmap string (list addr) :=
  (_has_class_index ix, _class_to_node_map ix).

(** The rendering of one child. *)
Definition render_child (repr_list : list string → string) (limit : nat)
    (h : heap) (indent : nat) (c : child) : outcome string :=
  match c with
  | ChildNode c => DOMNode._render repr_list limit h c (S indent)
  | ChildText s => Ret (repeat_str "  " (S indent) +:+ s)
  end.

(** A node that has been appended to itself. *)
Definition example_loop : heap :=
  [DOMNode.__init__ "div" [] (Some [ChildText "t"; ChildNode 0])].

(** A parser with a [title] element open, before and after a title has
    been recorded. *)
Definition example_title_parser (t : option string) : _CustomHTMLParser.t :=
  _CustomHTMLParser.mk
    [DOMNode.__init__ "DOCUMENT_ROOT" [] (Some [ChildNode 1]);
     DOMNode.__init__ "title" [] None]
    [] 0 t [0; 1].

(** The root with the children [cs]. *)
Definition root_with (cs : list child) : DOMNode.t :=
  DOMNode.__init__ "DOCUMENT_ROOT" [] (Some cs).

(** The parser on the heap [h] whose root has received [cs]. *)
Definition parser_with (h : heap) (source : list event) (cs : list child)
  : _CustomHTMLParser.t :=
  _CustomHTMLParser.mk (h ++ [root_with cs]) source (length h) None [length h].

Definition example_markup : list event :=
  [Data "a"; EndTag "p"; Comment "c"; Data "b";
   StartTag "i" [("id", Some "x")]; Data "never read"].

(** ** The monad and the loops *)

Ltac unfold_monad :=
  unfold mbind, M_bind, bind, mret, M_ret, ret, raise, expect, modify, get.

Lemma for_each_ext {S A} (l : list A) (f g : A → M S unit) (s : S) :
  (∀ x s, x ∈ l → f x s = g x s) → for_each l f s = for_each l g s.
Proof.
  revert s; induction l as [|x l IH]; intros s Hfg; [done|].
  cbn. unfold_monad. rewrite Hfg by left.
  destruct (g x s) as [s' [[]|e]]; [|done].
  apply IH. intros; apply Hfg. by right.
Qed.

Lemma for_each_modify {S A} (l : list A) (f : A → S → S) (s : S) :
  for_each l (λ x, modify (f x)) s = (foldl (λ s x, f x s) s l, Ret ()).
Proof.
  revert s; induction l as [|x l IH]; intros s; [done|].
  cbn. unfold_monad. cbn. apply IH.
Qed.

Lemma for_each_app {S A} (l1 l2 : list A) (f : A → M S unit) (s : S) :
  for_each (l1 ++ l2) f s =
  match for_each l1 f s with
  | (s', Ret _) => for_each l2 f s'
  | (s', Raise e) => (s', Raise e)
  end.
Proof.
  revert s; induction l1 as [|x l1 IH]; intros s; [done|].
  cbn. unfold_monad. destruct (f x s) as [s' [[]|e]]; [apply IH|done].
Qed.

(** ** The runtime model on examples *)





Example split_example : split "  x y  x " = ["x"; "y"; "x"].
Proof. reflexivity. Qed.

(** A no-break space, U+00A0, separates two tokens; the bytes of a
    letter outside ASCII, here U+00E9, stay in theirs. *)
Example split_no_break_space :
  split ("a" +:+ String (ascii_of_nat 194) (String (ascii_of_nat 160) "b"))
    = ["a"; "b"] ∧
  split ("a" +:+ String (ascii_of_nat 195) (String (ascii_of_nat 169) " b"))
    = ["a" +:+ String (ascii_of_nat 195) (String (ascii_of_nat 169) ""); "b"].
Proof. by split. Qed.

(** The three-byte whitespace characters, here U+2003 and U+3000. *)
Example split_wide_space :
  split ("a" +:+ String (ascii_of_nat 226) (String (ascii_of_nat 128)
           (String (ascii_of_nat 131) "b"))
         +:+ String (ascii_of_nat 227) (String (ascii_of_nat 128)
           (String (ascii_of_nat 128) "c")))
    = ["a"; "b"; "c"].
Proof. reflexivity. Qed.

Example lower_example : lower "DOCUMENT_Root1" = "document_root1".
Proof. reflexivity. Qed.

Example dict_set_example :
  dict_set "a" 3 [("a", 1); ("b", 2)] = [("a", 3); ("b", 2)] ∧
  dict_set "c" 3 [("a", 1); ("b", 2)] = [("a", 1); ("b", 2); ("c", 3)].
Proof. by split. Qed.

(** Text and end tags alone: the parse returns, the text is a leaf of the
    root and the end tag is dropped. *)
Example parse_text_and_end_tag :
  parse_document [Data "hi"; EndTag "p"] [] =
  ([DOMNode.__init__ "DOCUMENT_ROOT" [] (Some [ChildText "hi"])],
   Ret (DOMDocument.__init__ 0 None)).
Proof. reflexivity. Qed.

Example render_example :
  DOMNode._render (λ _, "") 2
    [DOMNode.__init__ "div" [("id", PyStr "a"); ("n", PyNone)]
       (Some [ChildNode 1; ChildText "t"]);
     DOMNode.__init__ "br" [] None] 0 0
  = Ret ("<div id=" +:+ dquote +:+ "a" +:+ dquote +:+ " n=" +:+ dquote
           +:+ "None" +:+ dquote +:+ ">" +:+ newline
           +:+ "  <br>" +:+ newline +:+ "  </br>" +:+ newline
           +:+ "  t" +:+ newline +:+ "</div>").
Proof. reflexivity. Qed.

(** ** The builders are walks *)

Lemma bind_ext {S A B} (m m' : M S A) (k k' : A → M S B) (s : S) :
  m s = m' s → (∀ a s', k a s' = k' a s') → (m ≫= k) s = (m' ≫= k') s.
Proof.
  intros Hm Hk. unfold_monad. rewrite Hm.
  destruct (m' s) as [s' [a|e]]; [apply Hk|done].
Qed.

Ltac walk_step IH :=
  cbn [DOMNode._build_tag_index DOMNode._build_id_index
       DOMNode._build_class_index DOMDocument._build_tag_index
       DOMDocument._build_id_index DOMDocument._build_class_index walk];
  apply bind_ext; [reflexivity|intros ? ?];
  apply bind_ext; [reflexivity|intros ? ?];
  apply bind_ext; [|reflexivity];
  apply for_each_ext; intros [?|?] ? _; [apply IH|reflexivity].

Lemma node_build_tag_walk limit h self : ∀ a ix,
  DOMNode._build_tag_index limit h self a ix =
  walk visit_tag (modify (set_has_tag_index true)) limit h self a ix.
Proof. induction limit as [|limit IH]; intros a ix; [done|]. walk_step IH. Qed.

Lemma node_build_id_walk limit h self : ∀ a ix,
  DOMNode._build_id_index limit h self a ix =
  walk visit_id (modify (set_has_id_index true)) limit h self a ix.
Proof. induction limit as [|limit IH]; intros a ix; [done|]. walk_step IH. Qed.

Lemma node_build_class_walk limit h self : ∀ a ix,
  DOMNode._build_class_index limit h self a ix =
  walk visit_class (modify (set_has_class_index true)) limit h self a ix.
Proof. induction limit as [|limit IH]; intros a ix; [done|]. walk_step IH. Qed.

Lemma doc_build_tag_walk limit h self : ∀ a ix,
  DOMDocument._build_tag_index limit h self a ix =
  walk visit_tag (modify (set_has_tag_index true)) limit h self a ix.
Proof. induction limit as [|limit IH]; intros a ix; [done|]. walk_step IH. Qed.

Lemma doc_build_id_walk limit h self : ∀ a ix,
  DOMDocument._build_id_index limit h self a ix =
  walk visit_id (modify (set_has_id_index true)) limit h self a ix.
Proof. induction limit as [|limit IH]; intros a ix; [done|]. walk_step IH. Qed.

Lemma doc_build_class_walk limit h self : ∀ a ix,
  DOMDocument._build_class_index limit h self a ix =
  walk visit_class (modify (set_has_class_index true)) limit h self a ix.
Proof. induction limit as [|limit IH]; intros a ix; [done|]. walk_step IH. Qed.

(** ** A walk folds the visits over the document order *)

Section WalkSpec.
Variable visit : DOMNode.t → addr → M indexes unit.
Variable finish : M indexes unit.
(** The pure effect of a visit and of the final marking. *)
Variable vis : addr → indexes → indexes.
Variable fin : indexes → indexes.
Variable h : heap.
Variable self : addr.

Hypothesis finish_fin : ∀ ix, finish ix = (fin ix, Ret ()).
Hypothesis fin_vis : ∀ a ix, fin (vis a ix) = vis a (fin ix).
Hypothesis fin_fin : ∀ ix, fin (fin ix) = fin ix.

Lemma visits_app ix l r : visits vis ix (l ++ r) = visits vis (visits vis ix l) r.
Proof. apply foldl_app. Qed.

Lemma visits_mark b ix l : visits vis (mark fin b ix) l = mark fin b (visits vis ix l).
Proof.
  revert ix; induction l as [|a l IH]; intros ix; [done|].
  change (visits vis (mark fin b ix) (a :: l))
    with (visits vis (vis a (mark fin b ix)) l).
  change (visits vis ix (a :: l)) with (visits vis (vis a ix) l).
  rewrite <- IH. f_equal. destruct b; cbn; [by rewrite fin_vis|done].
Qed.

Lemma mark_mark b1 b2 ix : mark fin b1 (mark fin b2 ix) = mark fin (b1 || b2) ix.
Proof. destruct b1, b2; cbn; auto. Qed.

Lemma walk_children limit cs :
  (∀ a l ix, subtree limit h a = Some l → visits_return visit vis h l →
     walk visit finish limit h self a ix =
     (mark fin (bool_decide (self ∈ l)) (visits vis ix l), Ret ())) →
  ∀ r ix, forest (subtree limit h) cs = Some r → visits_return visit vis h r →
    for_each cs (λ c, match c with
                      | ChildNode c => walk visit finish limit h self c
                      | ChildText _ => ret ()
                      end) ix =
    (mark fin (bool_decide (self ∈ r)) (visits vis ix r), Ret ()).
Proof.
  intros IH. induction cs as [|[c|s] cs IHcs]; intros r ix Hr Hv.
  - by injection Hr as <-.
  - cbn in Hr.
    destruct (subtree limit h c) as [l|] eqn:Hl; [|done]. cbn in Hr.
    destruct (forest (subtree limit h) cs) as [r'|] eqn:Hr'; [|done].
    injection Hr as <-.
    cbn. unfold_monad. rewrite (IH c l ix Hl).
    2:{ intros a n ix' Ha. apply Hv. apply elem_of_app; by left. }
    rewrite (IHcs r' _ eq_refl).
    2:{ intros a n ix' Ha. apply Hv. apply elem_of_app; by right. }
    rewrite visits_app, visits_mark, mark_mark. do 2 f_equal.
    apply eq_true_iff_eq.
    rewrite orb_true_iff, !bool_decide_eq_true, elem_of_app. tauto.
  - cbn in Hr. cbn. unfold_monad. by apply IHcs.
Qed.

Lemma walk_spec limit : ∀ a l ix,
  subtree limit h a = Some l → visits_return visit vis h l →
  walk visit finish limit h self a ix =
  (mark fin (bool_decide (self ∈ l)) (visits vis ix l), Ret ()).
Proof.
  induction limit as [|limit IH]; intros a l ix Hl Hv; [done|].
  cbn in Hl. destruct (h !! a) as [n|] eqn:Hn; [|done]. cbn in Hl.
  destruct (forest (subtree limit h) (DOMNode.children n)) as [r|] eqn:Hr;
    [|done].
  injection Hl as <-.
  cbn [walk]. unfold mbind, M_bind, bind, expect.
  rewrite Hn. cbn [ret].
  rewrite (Hv a n ix) by (by left || done).
  rewrite (walk_children limit _ IH r _ Hr).
  2:{ intros b m ix' Hb. apply Hv. by right. }
  cbn [visits foldl]. fold (visits vis (vis a ix) r).
  destruct (decide (a = self)) as [->|Hne].
  - rewrite finish_fin. f_equal.
    rewrite (bool_decide_true (self ∈ self :: r)) by left.
    change (fin ?x) with (mark fin true x). by rewrite mark_mark.
  - unfold ret. do 2 f_equal. apply bool_decide_ext.
    rewrite elem_of_cons. intuition congruence.
Qed.
End WalkSpec.

(** ** Filing nodes under keys *)

Lemma append_under_insert k a (m : gmap string (list addr)) :
  append_under k a m = <[k := default [] (m !! k) ++ [a]]> m.
Proof.
  unfold append_under. destruct (m !! k) as [l|] eqn:Hk.
  - by rewrite Hk.
  - rewrite lookup_insert_eq. cbn. by rewrite insert_insert_eq.
Qed.

Lemma filed_app m ps qs : filed m (ps ++ qs) = filed (filed m ps) qs.
Proof. apply foldl_app. Qed.

Lemma under_app k ps qs : under k (ps ++ qs) = under k ps ++ under k qs.
Proof. unfold under. by rewrite filter_app, fmap_app. Qed.

Lemma lookup_filed m ps k :
  filed m ps !! k =
  match under k ps with
  | [] => m !! k
  | l => Some (default [] (m !! k) ++ l)
  end.
Proof.
  revert m; induction ps as [|[k' a] ps IH]; intros m; [done|].
  cbn [filed foldl]. fold (filed (append_under k' a m) ps). rewrite IH.
  rewrite append_under_insert. unfold under. rewrite filter_cons. cbn [fst snd].
  destruct (decide (k' = k)) as [->|Hne].
  - rewrite lookup_insert_eq. cbn [default fmap list_fmap].
    fold (under k ps). destruct (under k ps) as [|b l].
    + done.
    + unfold id. cbn. by rewrite <- app_assoc.
  - by rewrite lookup_insert_ne.
Qed.

Lemma lookup_filed_empty ps k : filed ∅ ps !! k = nonempty (under k ps).
Proof.
  rewrite lookup_filed, lookup_empty. by destruct (under k ps).
Qed.

(** *** Tags *)

Lemma tag_map_visits h ix l :
  _tag_to_node_map (visits (vis_tag h) ix l) =
  filed (_tag_to_node_map ix) (tag_entries h l).
Proof.
  revert ix; induction l as [|a l IH]; intros ix; [done|].
  cbn [visits foldl]. fold (visits (vis_tag h) (vis_tag h a ix) l).
  rewrite IH. unfold vis_tag, tag_entries, tag_at. cbn [omap list_omap].
  by destruct (h !! a).
Qed.

Lemma under_tag_entries h t l :
  under t (tag_entries h l) = filter (λ a, tag_at h a = Some t) l.
Proof.
  induction l as [|a l IH]; [done|].
  unfold tag_entries. cbn [omap list_omap]. fold (tag_entries h l).
  rewrite filter_cons. destruct (tag_at h a) as [t'|]; cbn.
  - fold (under t (tag_entries h l)). rewrite <- IH.
    destruct (decide (t' = t)) as [->|Hne].
    + by rewrite decide_True by done.
    + by rewrite decide_False by congruence.
  - by rewrite decide_False by done.
Qed.

(** *** Class tokens *)

Lemma class_map_vis h a ix :
  _class_to_node_map (vis_class h a ix) =
  filed (_class_to_node_map ix) ((λ c, (c, a)) <$> tokens_at h a).
Proof.
  unfold vis_class. generalize (tokens_at h a) as cs.
  intros cs; revert ix; induction cs as [|c cs IH]; intros ix; [done|].
  cbn. by rewrite IH.
Qed.

Lemma class_map_visits h ix l :
  _class_to_node_map (visits (vis_class h) ix l) =
  filed (_class_to_node_map ix) (class_entries h l).
Proof.
  revert ix; induction l as [|a l IH]; intros ix; [done|].
  cbn [visits foldl]. fold (visits (vis_class h) (vis_class h a ix) l).
  rewrite IH, class_map_vis. unfold class_entries. cbn [mbind list_bind].
  by rewrite filed_app.
Qed.

Lemma under_class_entries h c l :
  under c (class_entries h l) = l ≫= occurrences c h.
Proof.
  induction l as [|a l IH]; [done|].
  unfold class_entries. cbn [mbind list_bind].
  fold (class_entries h l). rewrite under_app, IH. f_equal.
  unfold occurrences. generalize (tokens_at h a) as cs.
  induction cs as [|k cs IHcs]; [done|].
  cbn [fmap list_fmap]. unfold under in *. rewrite !filter_cons. cbn [fst].
  destruct (decide (k = c)); cbn; by rewrite <- IHcs.
Qed.

(** *** Identifiers *)




(** ** What each builder computes *)

Lemma subtree_self limit h a l : subtree limit h a = Some l → a ∈ l.
Proof.
  destruct limit as [|limit]; [done|]. cbn.
  destruct (h !! a) as [n|]; [|done]. cbn.
  destruct (forest _ _); [|done]. intros [= <-]. left.
Qed.

Lemma forest_mono (f g : addr → option (list addr)) cs r :
  (∀ a l, f a = Some l → g a = Some l) →
  forest f cs = Some r → forest g cs = Some r.
Proof.
  intros Hfg. revert r; induction cs as [|[c|s] cs IH]; intros r; [done| |].
  - cbn. destruct (f c) as [l|] eqn:Hl; [|done]. rewrite (Hfg _ _ Hl). cbn.
    destruct (forest f cs) as [r'|]; [|done]. by rewrite (IH r' eq_refl).
  - cbn. apply IH.
Qed.

(** A higher recursion limit explores the same subtree. *)
Lemma subtree_mono limit limit' h a l :
  limit ≤ limit' → subtree limit h a = Some l → subtree limit' h a = Some l.
Proof.
  revert limit' a l; induction limit as [|limit IH]; intros limit' a l Hle;
    [done|].
  destruct limit' as [|limit']; [lia|]. cbn.
  destruct (h !! a) as [n|]; [|done]. cbn.
  destruct (forest (subtree limit h) _) as [r|] eqn:Hr; [|done].
  intros [= <-].
  rewrite (forest_mono (subtree limit h) (subtree limit' h) _ r); [done| |done].
  intros b l'. apply IH. lia.
Qed.

Lemma subtree_lookup limit h a l b :
  subtree limit h a = Some l → b ∈ l → is_Some (h !! b).
Proof.
  revert a l; induction limit as [|limit IH]; intros a l; [done|]. cbn.
  destruct (h !! a) as [n|] eqn:Hn; [|done]. cbn.
  destruct (forest (subtree limit h) _) as [r|] eqn:Hr; [|done].
  intros [= <-] [->|Hb]%elem_of_cons; [by eexists|].
  revert r Hr Hb. generalize (DOMNode.children n) as cs.
  induction cs as [|[c|s] cs IHcs]; intros r.
  - intros [= <-]. by intros ?%elem_of_nil.
  - cbn. destruct (subtree limit h c) as [l1|] eqn:Hl1; [|done]. cbn.
    destruct (forest (subtree limit h) cs) as [r'|]; [|done].
    intros [= <-] [Hb|Hb]%elem_of_app; [by eapply IH|by eapply IHcs].
  - cbn. apply IHcs.
Qed.

Section Builders.
Variable h : heap.
Variable self : addr.

Lemma tag_walk limit a l ix :
  subtree limit h a = Some l →
  walk visit_tag (modify (set_has_tag_index true)) limit h self a ix =
  (mark (set_has_tag_index true) (bool_decide (self ∈ l))
        (visits (vis_tag h) ix l), Ret ()).
Proof.
  intros Hl. apply walk_spec; try done.
  - intros b ix'. unfold vis_tag. by destruct (h !! b).
  - intros b n ix' _ Hn. unfold visit_tag, vis_tag. by rewrite Hn.
Qed.

Lemma class_walk limit a l ix :
  subtree limit h a = Some l →
  walk visit_class (modify (set_has_class_index true)) limit h self a ix =
  (mark (set_has_class_index true) (bool_decide (self ∈ l))
        (visits (vis_class h) ix l), Ret ()).
Proof.
  intros Hl. apply walk_spec; try done.
  - intros b ix'. unfold vis_class.
    generalize (tokens_at h b) as cs. intros cs; revert ix'.
    induction cs as [|c cs IH]; intros ix'; [done|]. cbn. by rewrite IH.
  - intros b n ix' _ Hn. unfold visit_class, vis_class, tokens_at, attr_at.
    rewrite Hn. destruct (truthy _); [|done]. apply for_each_modify.
Qed.

Lemma id_walk limit a l ix :
  subtree limit h a = Some l → hashable_ids h l →
  walk visit_id (modify (set_has_id_index true)) limit h self a ix =
  (mark (set_has_id_index true) (bool_decide (self ∈ l))
        (visits (vis_id h) ix l), Ret ()).
Proof.
  intros Hl Hh. apply walk_spec; try done.
  - intros b ix'. unfold vis_id. by destruct (truthy _).
  - intros b n ix' Hb Hn. specialize (Hh b Hb).
    unfold visit_id, vis_id, attr_at in *. rewrite Hn in *.
    destruct (truthy _); [|done]. by rewrite Hh.
Qed.
End Builders.

(** ** The queries *)

Section Queries.
Context {R : Type}.
Variable flag : indexes → bool.
Variable cached : indexes → R.

Lemma node_query_built build self h n :
  h !! self = Some n → flag (DOMNode.index n) = true →
  node_query flag build cached self h = (h, Ret (cached (DOMNode.index n))).
Proof.
  intros Hn Hf. unfold node_query, DOMNode.deref. unfold_monad.
  rewrite Hn. cbn. rewrite Hf. cbn. by rewrite Hn.
Qed.

Lemma node_query_build build self h n ix r :
  h !! self = Some n → flag (DOMNode.index n) = false →
  build h (DOMNode.index n) = (ix, r) →
  node_query flag build cached self h =
  (<[self := DOMNode.set_index ix n]> h,
   match r with Ret _ => Ret (cached ix) | Raise e => Raise e end).
Proof.
  intros Hn Hf Hb.
  unfold node_query, DOMNode.deref, DOMNode.on_index. unfold_monad.
  rewrite Hn. cbn. rewrite Hf. cbn. rewrite Hn, Hb.
  destruct r as [[]|e]; [|done].
  rewrite list_lookup_insert_eq by (by eapply lookup_lt_Some). done.
Qed.

Lemma doc_query_built build d :
  flag (DOMDocument.index d) = true →
  doc_query flag build cached d = (d, Ret (cached (DOMDocument.index d))).
Proof. intros Hf. unfold doc_query. unfold_monad. by rewrite Hf. Qed.

Lemma doc_query_build build d ix r :
  flag (DOMDocument.index d) = false →
  build (DOMDocument.root d) (DOMDocument.index d) = (ix, r) →
  doc_query flag build cached d =
  (DOMDocument.set_index ix d,
   match r with Ret _ => Ret (cached ix) | Raise e => Raise e end).
Proof.
  intros Hf Hb. unfold doc_query, DOMDocument.on_index. unfold_monad.
  rewrite Hf. cbn. rewrite Hb. by destruct r as [[]|e].
Qed.
End Queries.

Lemma mark_tag_map b ix :
  _tag_to_node_map (mark (set_has_tag_index true) b ix) = _tag_to_node_map ix.
Proof. by destruct b. Qed.
Lemma mark_id_map b ix :
  _id_to_node_map (mark (set_has_id_index true) b ix) = _id_to_node_map ix.
Proof. by destruct b. Qed.
Lemma mark_class_map b ix :
  _class_to_node_map (mark (set_has_class_index true) b ix) =
  _class_to_node_map ix.
Proof. by destruct b. Qed.

Lemma node_get_by_tag_first limit h self n name l :
  h !! self = Some n → _has_tag_index (DOMNode.index n) = false →
  subtree limit h self = Some l →
  snd (DOMNode.get_by_tag limit self name h) =
  Ret (filed (_tag_to_node_map (DOMNode.index n)) (tag_entries h l) !! name).
Proof.
  intros Hn Hf Hl.
  change (DOMNode.get_by_tag limit self name) with
    (node_query _has_tag_index
       (λ h, DOMNode._build_tag_index limit h self self)
       (λ ix, _tag_to_node_map ix !! name) self).
  erewrite node_query_build; [|done|done|].
  2:{ rewrite node_build_tag_walk. by apply tag_walk. }
  cbn. by rewrite mark_tag_map, tag_map_visits.
Qed.

Lemma node_get_by_class_name_first limit h self n name l :
  h !! self = Some n → _has_class_index (DOMNode.index n) = false →
  subtree limit h self = Some l →
  snd (DOMNode.get_by_class_name limit self name h) =
  Ret (filed (_class_to_node_map (DOMNode.index n)) (class_entries h l)
         !! name).
Proof.
  intros Hn Hf Hl.
  change (DOMNode.get_by_class_name limit self name) with
    (node_query _has_class_index
       (λ h, DOMNode._build_class_index limit h self self)
       (λ ix, _class_to_node_map ix !! name) self).
  erewrite node_query_build; [|done|done|].
  2:{ rewrite node_build_class_walk. by apply class_walk. }
  cbn. by rewrite mark_class_map, class_map_visits.
Qed.

Lemma node_get_by_id_first limit h self n name l :
  h !! self = Some n → _has_id_index (DOMNode.index n) = false →
  subtree limit h self = Some l → hashable_ids h l →
  snd (DOMNode.get_by_id limit self name h) =
  Ret (_id_to_node_map (visits (vis_id h) (DOMNode.index n) l) !! PyStr name).
Proof.
  intros Hn Hf Hl Hh.
  change (DOMNode.get_by_id limit self name) with
    (node_query _has_id_index
       (λ h, DOMNode._build_id_index limit h self self)
       (λ ix, _id_to_node_map ix !! PyStr name) self).
  erewrite node_query_build; [|done|done|].
  2:{ rewrite node_build_id_walk. by apply id_walk. }
  cbn. by rewrite mark_id_map.
Qed.

Lemma doc_get_by_id_first limit h d name l :
  _has_id_index (DOMDocument.index d) = false →
  subtree limit h (DOMDocument.root d) = Some l → hashable_ids h l →
  snd (DOMDocument.get_by_id limit h name d) =
  Ret (_id_to_node_map (visits (vis_id h) (DOMDocument.index d) l)
         !! PyStr name).
Proof.
  intros Hf Hl Hh.
  change (DOMDocument.get_by_id limit h name) with
    (doc_query _has_id_index
       (λ root, DOMDocument._build_id_index limit h root root)
       (λ ix, _id_to_node_map ix !! PyStr name)).
  erewrite doc_query_build; [|done|].
  2:{ rewrite doc_build_id_walk. by apply id_walk. }
  cbn. by rewrite mark_id_map.
Qed.

Lemma node_get_by_tag_built limit h self n name :
  h !! self = Some n → _has_tag_index (DOMNode.index n) = true →
  DOMNode.get_by_tag limit self name h =
  (h, Ret (_tag_to_node_map (DOMNode.index n) !! name)).
Proof.
  apply (node_query_built _has_tag_index (λ ix, _tag_to_node_map ix !! name)).
Qed.

(** ** C3: get_by_tag *)


(** The map has to be empty as well: a build that the recursion limit
    stopped leaves its entries in the map and the flag unset, and the next
    query builds on top of them. *)
Example get_by_tag_after_stopped_build :
  let h1 := fst (DOMNode.get_by_tag 1 0 "p" example_heap) in
  snd (DOMNode.get_by_tag 1 0 "p" example_heap) = Raise RecursionError ∧
  subtree 3 h1 0 = Some [0; 1; 2; 3] ∧
  snd (DOMNode.get_by_tag 3 0 "div" h1) = Ret (Some [0; 0]).
Proof. by vm_compute. Qed.



(** ** C4: get_by_id *)






(** The hypothesis on the identifiers cannot be dropped: a non-empty list
    as [id] ends the build with TypeError, whatever comes after it. *)
Lemma get_by_id_unhashable_raises :
  let h := [DOMNode.__init__ "div" [("id", PyList ["z"])] (Some [ChildNode 1]);
            DOMNode.__init__ "p" [("id", PyStr "a")] None] in
  subtree 2 h 0 = Some [0; 1] ∧
  snd (DOMNode.get_by_id 2 0 "a" h) = Raise TypeError.
Proof. split; reflexivity. Qed.

(** An integer [id] is a key that no string equals. *)
Example get_by_id_integer_id :
  snd (DOMNode.get_by_id 1 0 "7" [DOMNode.__init__ "p" [("id", PyInt 7)] None])
  = Ret None.
Proof. reflexivity. Qed.

(** ** C7: get_by_class_name *)





(** Whitespace outside ASCII separates tokens as well: a [class] with a
    no-break space, U+00A0, between [a] and [b] files the node under
    both. *)
Example get_by_class_name_no_break_space :
  let h := [DOMNode.__init__ "p"
              [("class", PyStr ("a" +:+ String (ascii_of_nat 194)
                                          (String (ascii_of_nat 160) "b")))]
              None] in
  snd (DOMNode.get_by_class_name 1 0 "a" h) = Ret (Some [0]) ∧
  snd (DOMNode.get_by_class_name 1 0 "b" h) = Ret (Some [0]).
Proof. by vm_compute. Qed.

(** ** C8: the indexes are built once *)

(** A walk from [self] that returns has marked the index as built. *)
Lemma walk_returns_marked visit (set : indexes → indexes) limit h self ix ix' :
  walk visit (modify set) limit h self self ix = (ix', Ret ()) →
  ∃ ix0, ix' = set ix0.
Proof.
  destruct limit as [|limit]; [done|]. cbn [walk].
  unfold mbind, M_bind, bind, expect.
  destruct (h !! self) as [n|]; [|done]. cbn [ret].
  destruct (visit n self ix) as [ix1 [[]|e]]; [|done].
  destruct (for_each _ _ ix1) as [ix2 [[]|e]]; [|done].
  rewrite decide_True by done. intros [= <-]. by exists ix2.
Qed.

Section Cached.
Context {R : Type}.
Variable flag : indexes → bool.
Variable cached : indexes → R.

Lemma node_query_returns build self h h1 r :
  (∀ ix ix', build h ix = (ix', Ret ()) → flag ix' = true) →
  node_query flag build cached self h = (h1, Ret r) →
  ∃ n1, h1 !! self = Some n1 ∧ flag (DOMNode.index n1) = true ∧
        r = cached (DOMNode.index n1).
Proof.
  intros Hbuild Hq. destruct (h !! self) as [n|] eqn:Hn.
  - destruct (flag (DOMNode.index n)) eqn:Hf.
    + rewrite (node_query_built flag cached build self h n Hn Hf) in Hq.
      injection Hq as <- <-. by exists n.
    + destruct (build h (DOMNode.index n)) as [ix o] eqn:Hb.
      rewrite (node_query_build flag cached build self h n ix o Hn Hf Hb)
        in Hq.
      destruct o as [[]|e]; [|done]. injection Hq as <- <-.
      exists (DOMNode.set_index ix n). split; [|split; [|done]].
      * apply list_lookup_insert_eq. by eapply lookup_lt_Some.
      * by eapply Hbuild.
  - unfold node_query, DOMNode.deref, mbind, M_bind, bind, get, expect in Hq.
    by rewrite Hn in Hq.
Qed.

Lemma doc_query_returns build d d1 r :
  (∀ ix ix', build (DOMDocument.root d) ix = (ix', Ret ()) →
             flag ix' = true) →
  doc_query flag build cached d = (d1, Ret r) →
  flag (DOMDocument.index d1) = true ∧ r = cached (DOMDocument.index d1).
Proof.
  intros Hbuild Hq. destruct (flag (DOMDocument.index d)) eqn:Hf.
  - rewrite (doc_query_built flag cached build d Hf) in Hq.
    by injection Hq as <- <-.
  - destruct (build (DOMDocument.root d) (DOMDocument.index d)) as [ix o]
      eqn:Hb.
    rewrite (doc_query_build flag cached build d ix o Hf Hb) in Hq.
    destruct o as [[]|e]; [|done]. injection Hq as <- <-.
    split; [|done]. by eapply Hbuild.
Qed.
End Cached.

(** [append_child] writes [children] only. *)
Lemma append_child_index b c (h h2 : heap) a n :
  DOMNode.append_child b c h = (h2, Ret ()) → h !! a = Some n →
  ∃ n2, h2 !! a = Some n2 ∧ DOMNode.index n2 = DOMNode.index n
        ∧ DOMNode.tag n2 = DOMNode.tag n.
Proof.
  unfold DOMNode.append_child, DOMNode.deref. unfold_monad.
  destruct (h !! b) as [nb|] eqn:Hb; [|done]. cbn. intros [= <-] Ha.
  destruct (decide (a = b)) as [->|Hne].
  - rewrite list_lookup_insert_eq by (by eapply lookup_lt_Some).
    eexists. split; [done|]. rewrite Hb in Ha. by injection Ha as <-.
  - rewrite list_lookup_insert_ne by done. by exists n.
Qed.

Lemma node_index_cached_intro {R} (flag : indexes → bool)
    (cached : indexes → string → R)
    (build : nat → addr → heap → M indexes unit) :
  (∀ limit self h ix ix',
      build limit self h ix = (ix', Ret ()) → flag ix' = true) →
  node_index_cached
    (λ limit self name,
       node_query flag (build limit self) (λ ix, cached ix name) self)
    flag cached.
Proof.
  intros Hbuild limit h self name h1 r Hq.
  apply node_query_returns in Hq as (n1 & Hn1 & Hf & ->);
    [|intros ix ix'; apply Hbuild].
  exists n1. split; [done|]. split; [done|]. split; [done|].
  assert (∀ (h2 : heap) n2 limit' name',
             h2 !! self = Some n2 → DOMNode.index n2 = DOMNode.index n1 →
             node_query flag (build limit' self) (λ ix, cached ix name') self
               h2 = (h2, Ret (cached (DOMNode.index n1) name'))) as Hserved.
  { intros h2 n2 limit' name' Hn2 Hix. rewrite <- Hix.
    apply (node_query_built flag (λ ix, cached ix name')); [done|].
    by rewrite Hix. }
  split; [done|].
  intros b c h2 limit' name' Happ.
  destruct (append_child_index b c h1 h2 self n1 Happ Hn1)
    as (n2 & Hn2 & Hix & _).
  rewrite (Hserved h2 n2 limit' name' Hn2 Hix).
  by rewrite (Hserved h1 n1 limit' name' Hn1 eq_refl).
Qed.

Lemma document_index_cached_intro {R} (flag : indexes → bool)
    (cached : indexes → string → R)
    (build : nat → heap → addr → M indexes unit) :
  (∀ limit h root ix ix',
      build limit h root ix = (ix', Ret ()) → flag ix' = true) →
  document_index_cached
    (λ limit h name,
       doc_query flag (build limit h) (λ ix, cached ix name))
    flag cached.
Proof.
  intros Hbuild limit h name d d1 r Hq.
  apply doc_query_returns in Hq as [Hf ->]; [|intros ix ix'; apply Hbuild].
  split; [done|]. split; [done|].
  intros h2 limit' name'.
  by apply (doc_query_built flag (λ ix, cached ix name')).
Qed.

(** C8.  For a node and for a document, and for each of the three kinds of
    index, a query that returns leaves the owner's built flag set, and
    every later query of that kind is answered from the cached map without
    a traversal: it returns under any recursion limit and whatever the
    tree has become, so a child appended after the build does not change
    the answers. *)
Theorem indexes_served_from_cache :
  node_index_cached DOMNode.get_by_tag
    _has_tag_index (λ ix name, _tag_to_node_map ix !! name) ∧
  node_index_cached DOMNode.get_by_id
    _has_id_index (λ ix name, _id_to_node_map ix !! PyStr name) ∧
  node_index_cached DOMNode.get_by_class_name
    _has_class_index (λ ix name, _class_to_node_map ix !! name) ∧
  document_index_cached DOMDocument.get_by_tag
    _has_tag_index (λ ix name, _tag_to_node_map ix !! name) ∧
  document_index_cached DOMDocument.get_by_id
    _has_id_index (λ ix name, _id_to_node_map ix !! PyStr name) ∧
  document_index_cached DOMDocument.get_by_class_name
    _has_class_index (λ ix name, _class_to_node_map ix !! name).
Proof.
  refine (conj _ (conj _ (conj _ (conj _ (conj _ _))))).
  - apply (node_index_cached_intro _has_tag_index
             (λ ix name, _tag_to_node_map ix !! name)
             (λ limit self h, DOMNode._build_tag_index limit h self self)).
    intros limit self h ix ix'. rewrite node_build_tag_walk.
    by intros [ix0 ->]%walk_returns_marked.
  - apply (node_index_cached_intro _has_id_index
             (λ ix name, _id_to_node_map ix !! PyStr name)
             (λ limit self h, DOMNode._build_id_index limit h self self)).
    intros limit self h ix ix'. rewrite node_build_id_walk.
    by intros [ix0 ->]%walk_returns_marked.
  - apply (node_index_cached_intro _has_class_index
             (λ ix name, _class_to_node_map ix !! name)
             (λ limit self h, DOMNode._build_class_index limit h self self)).
    intros limit self h ix ix'. rewrite node_build_class_walk.
    by intros [ix0 ->]%walk_returns_marked.
  - apply (document_index_cached_intro _has_tag_index
             (λ ix name, _tag_to_node_map ix !! name)
             (λ limit h root, DOMDocument._build_tag_index limit h root root)).
    intros limit h root ix ix'. rewrite doc_build_tag_walk.
    by intros [ix0 ->]%walk_returns_marked.
  - apply (document_index_cached_intro _has_id_index
             (λ ix name, _id_to_node_map ix !! PyStr name)
             (λ limit h root, DOMDocument._build_id_index limit h root root)).
    intros limit h root ix ix'. rewrite doc_build_id_walk.
    by intros [ix0 ->]%walk_returns_marked.
  - apply (document_index_cached_intro _has_class_index
             (λ ix name, _class_to_node_map ix !! name)
             (λ limit h root,
                DOMDocument._build_class_index limit h root root)).
    intros limit h root ix ix'. rewrite doc_build_class_walk.
    by intros [ix0 ->]%walk_returns_marked.
Qed.

Lemma indexes_served_from_cache_witness :
  DOMNode.get_by_tag 3 0 "p" example_heap
    = (example_heap_indexed, Ret (Some [1; 2])) ∧
  DOMNode.append_child 0 (ChildNode 2) example_heap_indexed
    = (example_heap_grown, Ret ()) ∧
  snd (DOMNode.get_by_tag 0 0 "p" example_heap_grown)
    = snd (DOMNode.get_by_tag 0 0 "p" example_heap_indexed) ∧
  (let d := fst (DOMDocument.get_by_id 3 example_heap "a"
                   (DOMDocument.__init__ 0 None)) in
   DOMDocument.get_by_id 0 example_heap_grown "a" d
     = (d, Ret (_id_to_node_map (DOMDocument.index d) !! PyStr "a"))).
Proof.
  split; [reflexivity|]. split; [reflexivity|]. split.
  - destruct (proj1 indexes_served_from_cache 3 example_heap 0 "p"
                example_heap_indexed (Some [1; 2]) eq_refl)
      as (n1 & _ & _ & _ & _ & Happend).
    exact (Happend 0 (ChildNode 2) example_heap_grown 0 "p" eq_refl).
  - destruct (proj1 (proj2 (proj2 (proj2 (proj2 indexes_served_from_cache))))
                3 example_heap "a" (DOMDocument.__init__ 0 None) _ (Some 1)
                eq_refl)
      as (_ & _ & Hserved).
    exact (Hserved example_heap_grown 0 "a").
Defined.

(** After the append a fresh traversal would list the second [p] twice;
    the cached answer does not. *)
Example stale_after_append :
  snd (DOMNode.get_by_tag 0 0 "p" example_heap_grown) = Ret (Some [1; 2]) ∧
  subtree 3 example_heap_grown 0 = Some [0; 1; 2; 3; 2; 3].
Proof. split; reflexivity. Qed.

(** ** The tree builder, one call at a time *)


(** The name [VOID_TAGS] is bound nowhere: the set is called
    [_VOID_TAGS]. *)
Lemma VOID_TAGS_unbound {S} (s : S) :
  global "VOID_TAGS" s = (s, Raise NameError).
Proof. reflexivity. Qed.

Lemma handle_starttag_eq p tag attrs top n :
  last (node_stack p) = Some top → nodes p !! top = Some n →
  handle_starttag tag attrs p =
  (set_nodes (nodes_after_starttag (nodes p) top n tag attrs) p,
   Raise NameError).
Proof.
  intros Htop Hn.
  unfold handle_starttag, on_heap, top_of_stack, DOMNode.new,
    DOMNode.append_child, DOMNode.deref.
  unfold_monad. cbn. rewrite Htop. cbn.
  rewrite (lookup_app_l_Some _ _ _ _ Hn). reflexivity.
Qed.

Lemma handle_endtag_eq p name top n :
  last (node_stack p) = Some top → nodes p !! top = Some n →
  handle_endtag name p =
  (if String.eqb name (DOMNode.tag n)
   then set_node_stack (removelast (node_stack p)) p else p, Ret ()).
Proof.
  intros Htop Hn.
  unfold handle_endtag, on_heap, top_of_stack, DOMNode.deref.
  unfold_monad. rewrite Htop. cbn. rewrite Hn. cbn.
  destruct p; cbn. by destruct (String.eqb _ _).
Qed.

Lemma handle_data_eq p data top n :
  last (node_stack p) = Some top → nodes p !! top = Some n →
  handle_data data p =
  (set_nodes
     (<[top := DOMNode.set_children (DOMNode.children n ++ [ChildText data])
                 n]> (nodes p))
     (if String.eqb (DOMNode.tag n) "title" && bool_decide (title p = None)
      then set_title (Some data) p else p),
   Ret ()).
Proof.
  intros Htop Hn.
  unfold handle_data, on_heap, top_of_stack, DOMNode.append_child,
    DOMNode.deref.
  unfold_monad.
  destruct (node_stack p) as [|a st] eqn:Hst; [done|]. cbn [length Nat.ltb
    Nat.leb]. rewrite Hst, Htop. cbn. rewrite Hn. cbn.
  destruct (String.eqb _ _ && _); cbn; rewrite ?Hst, Htop; cbn;
    by rewrite Hn.
Qed.

(** ** C6: end tags *)

(** C6.  In a parser state whose stack has a top, an end tag whose name is
    not the tag of the top leaves the parser, its stack and the heap of
    nodes, as it is and raises nothing; an end tag whose name is the tag of
    the top removes the top from the stack and changes nothing else. *)
Theorem handle_endtag_pops_only_a_match
    (p : _CustomHTMLParser.t) (st : list addr) (top : addr) (n : DOMNode.t)
    (name : string) :
  node_stack p = st ++ [top] →
  nodes p !! top = Some n →
  (name ≠ DOMNode.tag n → handle_endtag name p = (p, Ret ())) ∧
  (name = DOMNode.tag n →
   handle_endtag name p = (set_node_stack st p, Ret ())).
Proof.
  intros Hst Hn.
  assert (last (node_stack p) = Some top) as Htop
    by (rewrite Hst; apply last_snoc).
  rewrite (handle_endtag_eq p name top n Htop Hn). split.
  - intros Hne. apply String.eqb_neq in Hne. by rewrite Hne.
  - intros ->. rewrite String.eqb_refl, Hst. by rewrite removelast_last.
Qed.

Lemma handle_endtag_pops_only_a_match_witness :
  handle_endtag "p" example_parser = (example_parser, Ret ()) ∧
  handle_endtag "div" example_parser
    = (set_node_stack [0] example_parser, Ret ()).
Proof.
  split.
  - refine (proj1 (handle_endtag_pops_only_a_match example_parser [0] 1 _ "p"
                     eq_refl eq_refl) _). discriminate.
  - exact (proj2 (handle_endtag_pops_only_a_match example_parser [0] 1 _ "div"
                    eq_refl eq_refl) eq_refl).
Defined.

(** ** C10: the root stays at the bottom of the stack *)

Lemma lower_ascii_not_D c : lower_ascii c ≠ "D"%char.
Proof. by destruct c as [[] [] [] [] [] [] [] []]; vm_compute. Qed.

(** No lowercased name is the tag of the root. *)
Lemma lower_not_root raw : lower raw ≠ "DOCUMENT_ROOT".
Proof.
  destruct raw as [|c raw]; [done|]. cbn. intros [= Hc _].
  by apply (lower_ascii_not_D c).
Qed.

Lemma stack_rooted_top root p :
  stack_rooted root p →
  ∃ top n, last (node_stack p) = Some top ∧ nodes p !! top = Some n.
Proof.
  intros [_ Hb _ Hv].
  destruct (last (node_stack p)) as [top|] eqn:Htop.
  - assert (top ∈ node_stack p) as Hin.
    { apply last_Some in Htop as [st ->]. apply elem_of_app. right. left. }
    rewrite Forall_forall in Hv. specialize (Hv top Hin).
    destruct (lookup_lt_is_Some_2 (nodes p) top Hv) as [n Hn]. eauto.
  - apply last_None in Htop. by rewrite Htop in Hb.
Qed.

Lemma tag_at_set_children (h : heap) a n cs b :
  h !! a = Some n →
  tag_at (<[a := DOMNode.set_children cs n]> h) b = tag_at h b.
Proof.
  intros Hn. unfold tag_at. destruct (decide (a = b)) as [->|Hne].
  - rewrite list_lookup_insert_eq by (by eapply lookup_lt_Some).
    by rewrite Hn.
  - by rewrite list_lookup_insert_ne.
Qed.

Lemma stack_rooted_starttag root p top n tag attrs :
  stack_rooted root p → nodes p !! top = Some n →
  stack_rooted root
    (set_nodes (nodes_after_starttag (nodes p) top n tag attrs) p).
Proof.
  intros [Hr Hb Ht Hv] Hn. unfold nodes_after_starttag.
  split; cbn; try done.
  - rewrite (tag_at_set_children _ _ n); [|by apply lookup_app_l_Some].
    unfold tag_at in *. destruct (nodes p !! root) as [m|] eqn:Hm; [|done].
    by rewrite (lookup_app_l_Some _ _ _ _ Hm).
  - rewrite length_insert, length_app. cbn.
    eapply Forall_impl; [done|]. cbn. lia.
Qed.

Lemma stack_rooted_data root p top n cs (p' : _CustomHTMLParser.t) :
  stack_rooted root p → nodes p !! top = Some n →
  root_node p' = root_node p → node_stack p' = node_stack p →
  stack_rooted root
    (set_nodes (<[top := DOMNode.set_children cs n]> (nodes p)) p').
Proof.
  intros [Hr Hb Ht Hv] Hn Hr' Hst'.
  split; cbn; rewrite ?Hr', ?Hst'; try done.
  - by rewrite (tag_at_set_children _ _ n).
  - by rewrite length_insert.
Qed.

Lemma stack_rooted_endtag root p top n raw :
  stack_rooted root p →
  last (node_stack p) = Some top → nodes p !! top = Some n →
  stack_rooted root
    (if String.eqb (lower raw) (DOMNode.tag n)
     then set_node_stack (removelast (node_stack p)) p else p).
Proof.
  intros Hp Htop Hn.
  destruct (String.eqb (lower raw) (DOMNode.tag n)) eqn:Heq; [|done].
  apply String.eqb_eq in Heq. destruct Hp as [Hr Hb Ht Hv].
  apply last_Some in Htop as [st Hst].
  split; cbn; try done; rewrite Hst, removelast_last.
  - destruct st as [|a st].
    + rewrite Hst in Hb. injection Hb as ->.
      unfold tag_at in Ht. rewrite Hn in Ht. injection Ht as Ht.
      rewrite Ht in Heq. by apply lower_not_root in Heq.
    + by rewrite Hst in Hb.
  - rewrite Hst in Hv. by apply Forall_app in Hv as [Hv _].
Qed.

(** One call keeps the root at the bottom, and raises only at a start
    tag. *)
Lemma handle_rooted root ev p :
  lowercased ev → stack_rooted root p →
  stack_rooted root (fst (handle ev p)) ∧
  snd (handle ev p) = if is_start_tag ev then Raise NameError else Ret ().
Proof.
  intros Hev Hp. destruct (stack_rooted_top root p Hp) as (top & n & Htop & Hn).
  destruct ev as [tag attrs|tag|data|data|name|name|data]; cbn [handle];
    try by split.
  - rewrite (handle_starttag_eq p tag attrs top n Htop Hn).
    split; [|done]. by apply stack_rooted_starttag.
  - destruct Hev as [raw ->].
    rewrite (handle_endtag_eq p (lower raw) top n Htop Hn).
    split; [|done]. by apply (stack_rooted_endtag root p top n raw).
  - rewrite (handle_data_eq p data top n Htop Hn).
    split; [|done]. apply (stack_rooted_data root p top n); try done.
    + by destruct (_ && _).
    + by destruct (_ && _).
Qed.

Lemma feed_rooted root source : ∀ p,
  Forall lowercased source → stack_rooted root p →
  stack_rooted root (fst (feed source p)) ∧
  snd (feed source p) =
    if existsb is_start_tag source then Raise NameError else Ret ().
Proof.
  induction source as [|ev source IH]; intros p Hsrc Hp; [by split|].
  apply Forall_cons in Hsrc as [Hev Hsrc].
  destruct (handle_rooted root ev p Hev Hp) as [Hp1 Hr1].
  unfold feed in *. cbn [for_each existsb]. unfold_monad.
  destruct (handle ev p) as [p1 r1]. cbn in Hp1, Hr1. subst r1.
  destruct (is_start_tag ev); [by split|]. cbn. by apply IH.
Qed.

Lemma init_rooted h source :
  stack_rooted (length h) (__init__ h source).
Proof.
  split; cbn; try done.
  - unfold tag_at. by rewrite list_lookup_middle.
  - apply Forall_singleton. rewrite length_app. cbn. lia.
Qed.

Lemma accumulate_eq h source :
  let parser := __init__ h source in
  accumulate parser =
  match feed source parser with
  | (p, Ret _) =>
      match node_stack p !! 0 with
      | Some bottom =>
          if decide (root_node p = bottom) then (p, Ret (root_node p))
          else (p, Raise AssertionError)
      | None => (p, Raise IndexError)
      end
  | (p, Raise e) => (p, Raise e)
  end.
Proof.
  intros parser. unfold accumulate. unfold_monad.
  change (_CustomHTMLParser.source parser) with source.
  destruct (feed source parser) as [p [[]|e]]; [|done].
  destruct (node_stack p !! 0); [|done]. cbn. by destruct (decide _).
Qed.

(** C10.  When the names of the end tags come lowercased, as the tokenizer
    passes them, then after every prefix of the calls the root is the
    bottom-most element of the stack, which is therefore never empty; and
    the assertion at the end of [accumulate] holds whenever it is reached:
    [accumulate] returns the root if [feed] returns and never raises
    AssertionError. *)
Theorem root_never_popped (h : heap) (source : list event) :
  Forall lowercased source →
  let parser := __init__ h source in
  let root := root_node parser in
  (∀ k, let p := fst (feed (take k source) parser) in
        node_stack p !! 0 = Some root ∧ root_node p = root) ∧
  (snd (feed source parser) = Ret () → snd (accumulate parser) = Ret root) ∧
  snd (accumulate parser) ≠ Raise AssertionError.
Proof.
  intros Hsrc parser root.
  assert (∀ src, Forall lowercased src →
                 stack_rooted root (fst (feed src parser))) as Hinv.
  { intros src Hs. apply feed_rooted; [done|]. apply init_rooted. }
  destruct (feed_rooted root source parser Hsrc (init_rooted h source))
    as [[Hr Hb _ _] Hout].
  pose proof (accumulate_eq h source) as Hacc. cbv zeta in Hacc.
  fold parser in Hacc. rewrite Hacc. clear Hacc.
  split; [|split].
  - intros k p. destruct (Hinv (take k source)) as [Hr' Hb' _ _].
    + by apply Forall_take.
    + done.
  - intros Hret. destruct (feed source parser) as [p r].
    cbn [fst snd] in *. subst r. rewrite Hret.
    rewrite Hb, decide_True by done. by rewrite Hr.
  - destruct (feed source parser) as [p r]. cbn [fst snd] in *. subst r.
    destruct (existsb _ _); [done|].
    by rewrite Hb, decide_True by done.
Qed.

Lemma example_source_lowercased : Forall lowercased example_source.
Proof.
  repeat constructor.
  - by exists "P".
  - by exists "DOCUMENT_ROOT".
Defined.

Lemma root_never_popped_witness :
  node_stack (fst (feed (take 4 example_source) (__init__ [] example_source)))
    !! 0 = Some 0 ∧
  snd (accumulate (__init__ [] example_source)) = Ret 0.
Proof.
  pose proof (root_never_popped [] example_source example_source_lowercased)
    as [Hall [Hret _]].
  split.
  - exact (proj1 (Hall 4)).
  - exact (Hret eq_refl).
Defined.

(** ** What [parse_document] does on every source *)

Lemma handle_only_root root ev p :
  lowercased ev → only_root root p → only_root root (fst (handle ev p)).
Proof.
  intros Hev Hp. pose proof Hp as [Hst Ht Hti Hr].
  assert (last (node_stack p) = Some root) as Htop by by rewrite Hst.
  unfold tag_at in Ht. destruct (nodes p !! root) as [n|] eqn:Hn; [|done].
  injection Ht as Ht.
  destruct ev as [tag attrs|tag|data|data|name|name|data]; cbn [handle];
    try exact Hp.
  - rewrite (handle_starttag_eq p tag attrs root n Htop Hn).
    split; cbn; try done. unfold nodes_after_starttag.
    rewrite (tag_at_set_children _ _ n); [|by apply lookup_app_l_Some].
    unfold tag_at. by rewrite (lookup_app_l_Some _ _ _ _ Hn), <- Ht.
  - destruct Hev as [raw ->].
    rewrite (handle_endtag_eq p (lower raw) root n Htop Hn).
    destruct (String.eqb _ _) eqn:Heq.
    + apply String.eqb_eq in Heq. rewrite Ht in Heq.
      by apply lower_not_root in Heq.
    + cbn [fst]. split; try done. unfold tag_at. rewrite Hn. cbn.
      by rewrite Ht.
  - rewrite (handle_data_eq p data root n Htop Hn). rewrite Ht. cbn.
    split; cbn; try done.
    rewrite (tag_at_set_children _ _ n) by done.
    unfold tag_at. rewrite Hn. cbn. by rewrite Ht.
Qed.

Lemma feed_only_root root source : ∀ p,
  Forall lowercased source → only_root root p →
  only_root root (fst (feed source p)).
Proof.
  induction source as [|ev source IH]; intros p Hsrc Hp; [done|].
  apply Forall_cons in Hsrc as [Hev Hsrc].
  pose proof (handle_only_root root ev p Hev Hp) as Hp1.
  unfold feed in *. cbn [for_each]. unfold_monad.
  destruct (handle ev p) as [p1 [[]|e]]; [|done]. by apply IH.
Qed.

(** On every source, [parse_document] raises NameError if the source has
    a start tag, and otherwise returns a document without a title. *)
Lemma parse_document_outcome h source :
  Forall lowercased source →
  snd (parse_document source h) =
  if existsb is_start_tag source then Raise NameError
  else Ret (DOMDocument.__init__ (length h) None).
Proof.
  intros Hsrc. unfold parse_document. rewrite accumulate_eq.
  destruct (feed_rooted (length h) source (__init__ h source) Hsrc
              (init_rooted h source)) as [[Hr Hb _ _] Hout].
  assert (only_root (length h) (fst (feed source (__init__ h source))))
    as [_ _ Hti _].
  { apply feed_only_root; [done|]. split; cbn; try done.
    unfold tag_at. by rewrite list_lookup_middle. }
  destruct (feed source _) as [p r]. cbn in *. subst r.
  destruct (existsb is_start_tag source); [done|].
  rewrite Hb, decide_True by done. cbn. by rewrite Hti, Hr.
Qed.

(** ** C1, C2, C5, C9: the start tag *)

(** C1 fails on the code.  [<p>], one start tag, makes [parse_document]
    raise NameError: [handle_starttag] reads the name [VOID_TAGS], and the
    module binds [_VOID_TAGS]. *)
Theorem parse_document_raises_on_start_tag :
  snd (parse_document [StartTag "p" []] []) = Raise NameError.
Proof. reflexivity. Qed.

(** C2 fails on the code.  On [<br>hello] the [br] node is appended to the
    root and the NameError of the void-tag test ends the parse: no tree is
    returned and the text is never read. *)
Theorem void_tag_test_raises :
  parse_document [StartTag "br" []; Data "hello"] [] =
  ([DOMNode.__init__ "DOCUMENT_ROOT" [] (Some [ChildNode 1]);
    DOMNode.__init__ "br" [] None],
   Raise NameError).
Proof. reflexivity. Qed.

(** C5 fails on the code.  On [<title>Hi</title>] the parse ends with
    NameError at the start tag, before the text of the title is read. *)
Theorem title_start_tag_raises :
  snd (parse_document [StartTag "title" []; Data "Hi"; EndTag "title"] [])
  = Raise NameError.
Proof. reflexivity. Qed.

(** C9 fails on the code.  The text [hi] parses to a root with one text
    leaf, which renders as a [DOCUMENT_ROOT] element; the tokenizer reads
    that text back as a start tag, a text and an end tag, on which
    [parse_document] raises NameError. *)
Theorem render_then_parse_raises (repr_list : list string → string) :
  let h := fst (parse_document [Data "hi"] []) in
  snd (parse_document [Data "hi"] []) = Ret (DOMDocument.__init__ 0 None) ∧
  DOMNode._render repr_list 1 h 0 0 =
    Ret ("<DOCUMENT_ROOT>" +:+ newline +:+ "  hi" +:+ newline
           +:+ "</DOCUMENT_ROOT>") ∧
  snd (parse_document
         [StartTag "document_root" [];
          Data (newline +:+ "  hi" +:+ newline);
          EndTag "document_root"] h)
  = Raise NameError.
Proof. repeat split. Qed.

(** * Further properties of the code *)

(** ** The document and its root *)

Lemma doc_get_by_tag_first limit h d name l :
  _has_tag_index (DOMDocument.index d) = false →
  subtree limit h (DOMDocument.root d) = Some l →
  snd (DOMDocument.get_by_tag limit h name d) =
  Ret (filed (_tag_to_node_map (DOMDocument.index d)) (tag_entries h l)
         !! name).
Proof.
  intros Hf Hl.
  change (DOMDocument.get_by_tag limit h name) with
    (doc_query _has_tag_index
       (λ root, DOMDocument._build_tag_index limit h root root)
       (λ ix, _tag_to_node_map ix !! name)).
  erewrite doc_query_build; [|done|].
  2:{ rewrite doc_build_tag_walk. by apply tag_walk. }
  cbn. by rewrite mark_tag_map, tag_map_visits.
Qed.

Lemma doc_get_by_class_name_first limit h d name l :
  _has_class_index (DOMDocument.index d) = false →
  subtree limit h (DOMDocument.root d) = Some l →
  snd (DOMDocument.get_by_class_name limit h name d) =
  Ret (filed (_class_to_node_map (DOMDocument.index d)) (class_entries h l)
         !! name).
Proof.
  intros Hf Hl.
  change (DOMDocument.get_by_class_name limit h name) with
    (doc_query _has_class_index
       (λ root, DOMDocument._build_class_index limit h root root)
       (λ ix, _class_to_node_map ix !! name)).
  erewrite doc_query_build; [|done|].
  2:{ rewrite doc_build_class_walk. by apply class_walk. }
  cbn. by rewrite mark_class_map, class_map_visits.
Qed.

(** A query of a node and the query of a document over that node agree
    when their builders do. *)
Lemma node_doc_query {R} (flag : indexes → bool) (cached : indexes → R)
    (nbuild : heap → M indexes unit) (dbuild : addr → M indexes unit) h d n :
  h !! DOMDocument.root d = Some n →
  DOMDocument.index d = DOMNode.index n →
  (∀ ix, dbuild (DOMDocument.root d) ix = nbuild h ix) →
  snd (doc_query flag dbuild cached d) =
  snd (node_query flag nbuild cached (DOMDocument.root d) h).
Proof.
  intros Hn Hix Hbuild. destruct (flag (DOMNode.index n)) eqn:Hf.
  - rewrite (node_query_built flag cached _ _ h n Hn Hf).
    rewrite doc_query_built by (by rewrite Hix). by rewrite Hix.
  - destruct (nbuild h (DOMNode.index n)) as [ix r] eqn:Hb.
    rewrite (node_query_build flag cached _ _ h n ix r Hn Hf Hb).
    rewrite (doc_query_build flag cached _ d ix r);
      [done|by rewrite Hix|by rewrite Hbuild, Hix].
Qed.

(** X1.  A document answers as its root node does: when the index fields
    of the document are those of the root, each of the three queries of
    the document has the outcome, answer or exception, of the same query
    of the root. *)
Theorem document_answers_as_its_root
    (limit : nat) (h : heap) (d : DOMDocument.t) (n : DOMNode.t)
    (name : string) :
  h !! DOMDocument.root d = Some n →
  DOMDocument.index d = DOMNode.index n →
  snd (DOMDocument.get_by_tag limit h name d) =
    snd (DOMNode.get_by_tag limit (DOMDocument.root d) name h) ∧
  snd (DOMDocument.get_by_id limit h name d) =
    snd (DOMNode.get_by_id limit (DOMDocument.root d) name h) ∧
  snd (DOMDocument.get_by_class_name limit h name d) =
    snd (DOMNode.get_by_class_name limit (DOMDocument.root d) name h).
Proof.
  intros Hn Hix. split; [|split].
  - apply (node_doc_query _has_tag_index (λ ix, _tag_to_node_map ix !! name)
             (λ h, DOMNode._build_tag_index limit h (DOMDocument.root d)
                     (DOMDocument.root d))
             (λ root, DOMDocument._build_tag_index limit h root root)
             h d n Hn Hix).
    intros ix. cbn beta. etransitivity; [apply doc_build_tag_walk|].
    symmetry. apply node_build_tag_walk.
  - apply (node_doc_query _has_id_index
             (λ ix, _id_to_node_map ix !! PyStr name)
             (λ h, DOMNode._build_id_index limit h (DOMDocument.root d)
                     (DOMDocument.root d))
             (λ root, DOMDocument._build_id_index limit h root root)
             h d n Hn Hix).
    intros ix. cbn beta. etransitivity; [apply doc_build_id_walk|].
    symmetry. apply node_build_id_walk.
  - apply (node_doc_query _has_class_index
             (λ ix, _class_to_node_map ix !! name)
             (λ h, DOMNode._build_class_index limit h (DOMDocument.root d)
                     (DOMDocument.root d))
             (λ root, DOMDocument._build_class_index limit h root root)
             h d n Hn Hix).
    intros ix. cbn beta. etransitivity; [apply doc_build_class_walk|].
    symmetry. apply node_build_class_walk.
Qed.

Lemma document_answers_as_its_root_witness :
  snd (DOMDocument.get_by_tag 3 example_heap "p" (DOMDocument.__init__ 0 None))
    = snd (DOMNode.get_by_tag 3 0 "p" example_heap) ∧
  snd (DOMDocument.get_by_id 1 example_heap "a" (DOMDocument.__init__ 0 None))
    = snd (DOMNode.get_by_id 1 0 "a" example_heap).
Proof.
  split.
  - exact (proj1 (document_answers_as_its_root 3 example_heap
                    (DOMDocument.__init__ 0 None) _ "p" eq_refl eq_refl)).
  - exact (proj1 (proj2 (document_answers_as_its_root 1 example_heap
                           (DOMDocument.__init__ 0 None) _ "a" eq_refl
                           eq_refl))).
Defined.

(** X2.  The first [get_by_tag] of a document returns the nodes of the
    tree with the tag, the root included, in document order, and [None]
    when there is none. *)
Theorem document_get_by_tag_document_order
    (limit : nat) (h : heap) (d : DOMDocument.t) (t : string)
    (l : list addr) :
  _has_tag_index (DOMDocument.index d) = false →
  _tag_to_node_map (DOMDocument.index d) = ∅ →
  subtree limit h (DOMDocument.root d) = Some l →
  snd (DOMDocument.get_by_tag limit h t d) =
  Ret (nonempty (filter (λ a, tag_at h a = Some t) l)).
Proof.
  intros Hf Hm Hl. rewrite (doc_get_by_tag_first limit h d t l Hf Hl), Hm.
  by rewrite lookup_filed_empty, under_tag_entries.
Qed.

Lemma document_get_by_tag_document_order_witness :
  snd (DOMDocument.get_by_tag 3 example_heap "p" (DOMDocument.__init__ 0 None))
  = Ret (Some [1; 2]).
Proof.
  exact (document_get_by_tag_document_order 3 example_heap
           (DOMDocument.__init__ 0 None) "p" [0; 1; 2; 3]
           eq_refl eq_refl eq_refl).
Defined.

(** X3.  The first [get_by_class_name] of a document lists the nodes of
    the tree in document order, each as many times as the token occurs
    among its class tokens, and returns [None] when that list is empty. *)
Theorem document_get_by_class_name_occurrences
    (limit : nat) (h : heap) (d : DOMDocument.t) (c : string)
    (l : list addr) :
  _has_class_index (DOMDocument.index d) = false →
  _class_to_node_map (DOMDocument.index d) = ∅ →
  subtree limit h (DOMDocument.root d) = Some l →
  snd (DOMDocument.get_by_class_name limit h c d) =
  Ret (nonempty (l ≫= occurrences c h)).
Proof.
  intros Hf Hm Hl.
  rewrite (doc_get_by_class_name_first limit h d c l Hf Hl), Hm.
  by rewrite lookup_filed_empty, under_class_entries.
Qed.

Lemma document_get_by_class_name_occurrences_witness :
  snd (DOMDocument.get_by_class_name 3 example_heap "x"
         (DOMDocument.__init__ 0 None))
  = Ret (Some [1; 2]).
Proof.
  exact (document_get_by_class_name_occurrences 3 example_heap
           (DOMDocument.__init__ 0 None) "x" [0; 1; 2; 3]
           eq_refl eq_refl eq_refl).
Defined.

(** ** A node is in its own answers *)

(** X4.  A node is listed in the index it builds: the first [get_by_tag]
    of a node for the node's own tag never returns [None], and the node
    itself comes first in the answer. *)
Theorem get_by_tag_lists_self_first
    (limit : nat) (h : heap) (n : addr) (node : DOMNode.t) (l : list addr) :
  h !! n = Some node →
  _has_tag_index (DOMNode.index node) = false →
  _tag_to_node_map (DOMNode.index node) = ∅ →
  subtree limit h n = Some l →
  ∃ rest, snd (DOMNode.get_by_tag limit n (DOMNode.tag node) h)
          = Ret (Some (n :: rest)).
Proof.
  intros Hn Hf Hm Hl.
  rewrite (node_get_by_tag_first limit h n node _ l Hn Hf Hl), Hm.
  rewrite lookup_filed_empty, under_tag_entries.
  destruct limit as [|limit]; [done|]. cbn in Hl. rewrite Hn in Hl. cbn in Hl.
  destruct (forest _ _) as [r|]; [|done]. injection Hl as <-.
  rewrite filter_cons, decide_True by (unfold tag_at; by rewrite Hn).
  by eexists.
Qed.

Lemma get_by_tag_lists_self_first_witness :
  ∃ rest, snd (DOMNode.get_by_tag 2 2 "p" example_heap)
          = Ret (Some (2 :: rest)).
Proof.
  exact (get_by_tag_lists_self_first 2 example_heap 2 _ [2; 3]
           eq_refl eq_refl eq_refl eq_refl).
Defined.

(** ** What a query writes *)

Lemma node_query_heap {R} (flag : indexes → bool)
    (build : heap → M indexes unit) (cached : indexes → R) self (h : heap) :
  fst (node_query flag build cached self h) = h ∨
  ∃ n ix, h !! self = Some n ∧
          fst (node_query flag build cached self h)
          = <[self := DOMNode.set_index ix n]> h ∧
          ix = fst (build h (DOMNode.index n)).
Proof.
  destruct (h !! self) as [n|] eqn:Hn.
  - destruct (flag (DOMNode.index n)) eqn:Hf.
    + left. by rewrite (node_query_built flag cached build self h n Hn Hf).
    + right. destruct (build h (DOMNode.index n)) as [ix r] eqn:Hb.
      exists n, ix.
      rewrite (node_query_build flag cached build self h n ix r Hn Hf Hb).
      rewrite Hb. by repeat split.
  - left. unfold node_query, DOMNode.deref. unfold_monad. by rewrite Hn.
Qed.

Lemma for_each_preserves {S A X} (f : S → X) (l : list A)
    (body : A → M S unit) :
  (∀ x s, x ∈ l → f (fst (body x s)) = f s) →
  ∀ s, f (fst (for_each l body s)) = f s.
Proof.
  induction l as [|x l IH]; intros Hbody s; [done|].
  cbn. unfold_monad.
  pose proof (Hbody x s ltac:(left)) as Hx.
  destruct (body x s) as [s1 [[]|e]]; [|done]. cbn in Hx.
  rewrite IH; [done|]. intros y s' Hy. apply Hbody. by right.
Qed.

(** A walk keeps what its visits and its final marking keep. *)
Lemma walk_preserves {X} (f : indexes → X)
    (visit : DOMNode.t → addr → M indexes unit) (finish : M indexes unit)
    limit (h : heap) self :
  (∀ n a ix, f (fst (visit n a ix)) = f ix) →
  (∀ ix, f (fst (finish ix)) = f ix) →
  ∀ a ix, f (fst (walk visit finish limit h self a ix)) = f ix.
Proof.
  intros Hvisit Hfinish.
  induction limit as [|limit IH]; intros a ix; [done|].
  cbn [walk]. unfold mbind, M_bind, bind, expect.
  destruct (h !! a) as [n|]; [|done]. cbn [ret].
  pose proof (Hvisit n a ix) as Hv.
  destruct (visit n a ix) as [ix1 [[]|e]]; [|done]. cbn in Hv.
  pose proof (for_each_preserves f (DOMNode.children n)
                (λ c, match c with
                      | ChildNode c => walk visit finish limit h self c
                      | ChildText _ => ret ()
                      end)) as Hc.
  specialize (Hc ltac:(intros [c|s] s' _; [apply IH|done]) ix1).
  destruct (for_each _ _ ix1) as [ix2 [[]|e]]; cbn [fst] in *;
    [|congruence].
  destruct (decide (a = self)).
  - rewrite Hfinish. congruence.
  - cbn. congruence.
Qed.

Lemma node_query_projection {R X} (flag : indexes → bool)
    (build : heap → M indexes unit) (cached : indexes → R)
    (f : indexes → X) self (h : heap) n :
  h !! self = Some n →
  (∀ ix, f (fst (build h ix)) = f ix) →
  ∃ n1, fst (node_query flag build cached self h) !! self = Some n1 ∧
        f (DOMNode.index n1) = f (DOMNode.index n).
Proof.
  intros Hn Hbuild.
  destruct (node_query_heap flag build cached self h)
    as [->|(n' & ix & Hn' & -> & ->)].
  - by exists n.
  - rewrite Hn in Hn'. injection Hn' as <-.
    exists (DOMNode.set_index (fst (build h (DOMNode.index n))) n).
    split; [|apply Hbuild].
    apply list_lookup_insert_eq. by eapply lookup_lt_Some.
Qed.

Lemma visit_class_fields n a ix :
  tag_fields (fst (visit_class n a ix)) = tag_fields ix ∧
  id_fields (fst (visit_class n a ix)) = id_fields ix.
Proof.
  unfold visit_class. destruct (truthy _); [|done].
  rewrite for_each_modify. cbn [fst].
  generalize (classes_of (default PyNone (dict_get "class" (DOMNode.attrs n)))).
  intros cs. revert ix. induction cs as [|c cs IH]; intros ix; [done|].
  cbn. by destruct (IH (set_class_to_node_map
                          (append_under c a (_class_to_node_map ix)) ix))
    as [-> ->].
Qed.

Lemma visit_id_fields n a ix :
  tag_fields (fst (visit_id n a ix)) = tag_fields ix ∧
  class_fields (fst (visit_id n a ix)) = class_fields ix.
Proof.
  unfold visit_id. destruct (truthy _); [|done]. by destruct (hashable _).
Qed.

(** X6.  The three indexes of a node are built apart: a query of one kind,
    whatever its outcome, leaves the built flag and the map of the two
    other kinds as they were. *)
Theorem queries_build_one_index
    (limit : nat) (h : heap) (self : addr) (n : DOMNode.t) (name : string) :
  h !! self = Some n →
  (∃ n1, fst (DOMNode.get_by_tag limit self name h) !! self = Some n1 ∧
         id_fields (DOMNode.index n1) = id_fields (DOMNode.index n) ∧
         class_fields (DOMNode.index n1) = class_fields (DOMNode.index n)) ∧
  (∃ n1, fst (DOMNode.get_by_id limit self name h) !! self = Some n1 ∧
         tag_fields (DOMNode.index n1) = tag_fields (DOMNode.index n) ∧
         class_fields (DOMNode.index n1) = class_fields (DOMNode.index n)) ∧
  (∃ n1, fst (DOMNode.get_by_class_name limit self name h) !! self = Some n1 ∧
         tag_fields (DOMNode.index n1) = tag_fields (DOMNode.index n) ∧
         id_fields (DOMNode.index n1) = id_fields (DOMNode.index n)).
Proof.
  intros Hn. split; [|split].
  - destruct (node_query_projection _has_tag_index
                (λ h, DOMNode._build_tag_index limit h self self)
                (λ ix, _tag_to_node_map ix !! name)
                (λ ix, (id_fields ix, class_fields ix)) self h n Hn)
      as (n1 & Hn1 & Heq).
    + intros ix. rewrite node_build_tag_walk.
      by apply (walk_preserves (λ ix, (id_fields ix, class_fields ix))).
    + exists n1. split; [done|]. by apply pair_equal_spec in Heq.
  - destruct (node_query_projection _has_id_index
                (λ h, DOMNode._build_id_index limit h self self)
                (λ ix, _id_to_node_map ix !! PyStr name)
                (λ ix, (tag_fields ix, class_fields ix)) self h n Hn)
      as (n1 & Hn1 & Heq).
    + intros ix. rewrite node_build_id_walk.
      apply (walk_preserves (λ ix, (tag_fields ix, class_fields ix)));
        [|done].
      intros m a ix'. by destruct (visit_id_fields m a ix') as [-> ->].
    + exists n1. split; [done|]. by apply pair_equal_spec in Heq.
  - destruct (node_query_projection _has_class_index
                (λ h, DOMNode._build_class_index limit h self self)
                (λ ix, _class_to_node_map ix !! name)
                (λ ix, (tag_fields ix, id_fields ix)) self h n Hn)
      as (n1 & Hn1 & Heq).
    + intros ix. rewrite node_build_class_walk.
      apply (walk_preserves (λ ix, (tag_fields ix, id_fields ix)));
        [|done].
      intros m a ix'. by destruct (visit_class_fields m a ix') as [-> ->].
    + exists n1. split; [done|]. by apply pair_equal_spec in Heq.
Qed.

Lemma queries_build_one_index_witness :
  ∃ n1, fst (DOMNode.get_by_tag 3 0 "p" example_heap) !! 0 = Some n1 ∧
        id_fields (DOMNode.index n1) = (false, ∅) ∧
        class_fields (DOMNode.index n1) = (false, ∅).
Proof.
  exact (proj1 (queries_build_one_index 3 example_heap 0 _ "p" eq_refl)).
Defined.

(** ** Text leaves and the indexes *)

Lemma forest_ext (f g : addr → option (list addr)) cs :
  (∀ a, f a = g a) → forest f cs = forest g cs.
Proof.
  intros Hfg. induction cs as [|[c|s] cs IH]; [done| |done].
  cbn. by rewrite Hfg, IH.
Qed.

Lemma forest_text f cs s : forest f (cs ++ [ChildText s]) = forest f cs.
Proof.
  induction cs as [|[c|s'] cs IH]; [done| |done]. cbn. by rewrite IH.
Qed.

Lemma append_text_eq b s (h h2 : heap) :
  DOMNode.append_child b (ChildText s) h = (h2, Ret ()) →
  ∃ nb, h !! b = Some nb ∧
        h2 = <[b := DOMNode.set_children
                       (DOMNode.children nb ++ [ChildText s]) nb]> h.
Proof.
  unfold DOMNode.append_child, DOMNode.deref. unfold_monad.
  destruct (h !! b) as [nb|] eqn:Hb; [|done]. cbn. intros [= <-].
  by exists nb.
Qed.

Lemma subtree_append_text b s (h h2 : heap) :
  DOMNode.append_child b (ChildText s) h = (h2, Ret ()) →
  ∀ limit a, subtree limit h2 a = subtree limit h a.
Proof.
  intros (nb & Hb & ->)%append_text_eq.
  induction limit as [|limit IH]; intros a; [done|]. cbn.
  destruct (decide (b = a)) as [<-|Hne].
  - rewrite list_lookup_insert_eq by (by eapply lookup_lt_Some).
    rewrite Hb. cbn. rewrite forest_text.
    by rewrite (forest_ext _ (subtree limit h)).
  - rewrite list_lookup_insert_ne by done.
    destruct (h !! a) as [n|]; [|done]. cbn.
    by rewrite (forest_ext _ (subtree limit h)).
Qed.

Lemma attr_at_set_children key (h : heap) a n cs b :
  h !! a = Some n →
  attr_at key (<[a := DOMNode.set_children cs n]> h) b = attr_at key h b.
Proof.
  intros Hn. unfold attr_at. destruct (decide (a = b)) as [->|Hne].
  - rewrite list_lookup_insert_eq by (by eapply lookup_lt_Some).
    by rewrite Hn.
  - by rewrite list_lookup_insert_ne.
Qed.

Lemma tag_entries_ext (h h2 : heap) l :
  (∀ a, tag_at h2 a = tag_at h a) → tag_entries h2 l = tag_entries h l.
Proof.
  intros Htag. induction l as [|a l IH]; [done|].
  unfold tag_entries in *. cbn. by rewrite Htag, IH.
Qed.

Lemma visits_ext (vis vis' : addr → indexes → indexes) l :
  (∀ a ix, vis a ix = vis' a ix) →
  ∀ ix, visits vis ix l = visits vis' ix l.
Proof.
  intros Hvis. induction l as [|a l IH]; intros ix; [done|].
  change (visits vis (vis a ix) l = visits vis' (vis' a ix) l).
  by rewrite Hvis, IH.
Qed.

(** X7.  Text leaves are invisible to the indexes: appending a text to any
    node does not change the answer of a query on a subtree that is
    explored within the recursion limit, whether the index is built
    already or not. *)
Theorem text_leaves_are_not_indexed
    (limit : nat) (h h2 : heap) (b : addr) (s : string) (n : addr)
    (node : DOMNode.t) (name : string) (l : list addr) :
  DOMNode.append_child b (ChildText s) h = (h2, Ret ()) →
  h !! n = Some node →
  subtree limit h n = Some l →
  snd (DOMNode.get_by_tag limit n name h2)
    = snd (DOMNode.get_by_tag limit n name h) ∧
  snd (DOMNode.get_by_class_name limit n name h2)
    = snd (DOMNode.get_by_class_name limit n name h) ∧
  (hashable_ids h l →
   snd (DOMNode.get_by_id limit n name h2)
     = snd (DOMNode.get_by_id limit n name h)).
Proof.
  intros Happ Hn Hl.
  pose proof (subtree_append_text b s h h2 Happ limit n) as Hl2.
  rewrite Hl in Hl2.
  destruct (append_child_index b (ChildText s) h h2 n node Happ Hn)
    as (node2 & Hn2 & Hix & _).
  apply append_text_eq in Happ as (nb & Hb & ->).
  assert (∀ a, tag_at (<[b := DOMNode.set_children
                          (DOMNode.children nb ++ [ChildText s]) nb]> h) a
               = tag_at h a) as Htag
    by (intros a; by apply tag_at_set_children).
  assert (∀ key a, attr_at key (<[b := DOMNode.set_children
                          (DOMNode.children nb ++ [ChildText s]) nb]> h) a
               = attr_at key h a) as Hattr
    by (intros key a; by apply attr_at_set_children).
  set (h2 := <[b := _]> h) in *.
  split; [|split].
  - destruct (_has_tag_index (DOMNode.index node)) eqn:Hf.
    + rewrite (node_get_by_tag_built limit h n node name Hn Hf).
      rewrite (node_get_by_tag_built limit h2 n node2 name Hn2)
        by (by rewrite Hix).
      by rewrite Hix.
    + rewrite (node_get_by_tag_first limit h n node name l Hn Hf Hl).
      rewrite (node_get_by_tag_first limit h2 n node2 name l Hn2)
        by (done || by rewrite Hix).
      rewrite Hix. by rewrite (tag_entries_ext h h2 l Htag).
  - destruct (_has_class_index (DOMNode.index node)) eqn:Hf.
    + change (DOMNode.get_by_class_name limit n name) with
        (node_query _has_class_index
           (λ h, DOMNode._build_class_index limit h n n)
           (λ ix, _class_to_node_map ix !! name) n).
      rewrite (node_query_built _ _ _ n h node Hn Hf).
      rewrite (node_query_built _ _ _ n h2 node2 Hn2) by (by rewrite Hix).
      by rewrite Hix.
    + rewrite (node_get_by_class_name_first limit h n node name l Hn Hf Hl).
      rewrite (node_get_by_class_name_first limit h2 n node2 name l Hn2)
        by (done || by rewrite Hix).
      rewrite Hix. do 3 f_equal. unfold class_entries.
      apply list_bind_ext; [|done]. intros a. unfold tokens_at.
      by rewrite Hattr.
  - intros Hh. destruct (_has_id_index (DOMNode.index node)) eqn:Hf.
    + change (DOMNode.get_by_id limit n name) with
        (node_query _has_id_index
           (λ h, DOMNode._build_id_index limit h n n)
           (λ ix, _id_to_node_map ix !! PyStr name) n).
      rewrite (node_query_built _ _ _ n h node Hn Hf).
      rewrite (node_query_built _ _ _ n h2 node2 Hn2) by (by rewrite Hix).
      by rewrite Hix.
    + rewrite (node_get_by_id_first limit h n node name l Hn Hf Hl Hh).
      rewrite (node_get_by_id_first limit h2 n node2 name l Hn2).
      * rewrite Hix. do 3 f_equal. apply visits_ext.
        intros a ix. unfold vis_id. by rewrite Hattr.
      * by rewrite Hix.
      * done.
      * intros a Ha. rewrite Hattr. by apply Hh.
Qed.

Lemma text_leaves_are_not_indexed_witness :
  let h2 := fst (DOMNode.append_child 2 (ChildText "more") example_heap) in
  snd (DOMNode.get_by_tag 3 0 "p" h2)
    = snd (DOMNode.get_by_tag 3 0 "p" example_heap).
Proof.
  exact (proj1 (text_leaves_are_not_indexed 3 example_heap _ 2 "more" 0 _ "p"
                  [0; 1; 2; 3] eq_refl eq_refl eq_refl)).
Defined.

(** ** The recursion limit *)

(** A walk that returns has explored the subtree. *)
Lemma walk_returns_explored visit finish limit (h : heap) self : ∀ a ix ix',
  walk visit finish limit h self a ix = (ix', Ret ()) →
  is_Some (subtree limit h a).
Proof.
  induction limit as [|limit IH]; intros a ix ix'; [done|].
  cbn [walk subtree]. unfold mbind at 1 2 3, M_bind, bind, expect.
  destruct (h !! a) as [n|]; [|cbn; by intros [=]].
  cbn [ret mbind option_bind].
  destruct (visit n a ix) as [ix1 [[]|e]]; [|by intros [=]].
  destruct (for_each _ _ ix1) as [ix2 [[]|e]] eqn:Hc; [|by intros [=]].
  intros _.
  assert (is_Some (forest (subtree limit h) (DOMNode.children n))) as [r ->];
    [|by eexists].
  clear -IH Hc. revert ix1 Hc.
  induction (DOMNode.children n) as [|[c|s] cs IHcs]; intros ix1 Hc.
  - by eexists.
  - cbn [for_each] in Hc. unfold mbind, M_bind, bind in Hc.
    destruct (walk visit finish limit h self c ix1) as [ix3 [[]|e]] eqn:Hw;
      [|done].
    destruct (IH c ix1 ix3 Hw) as [l Hl].
    destruct (IHcs ix3 Hc) as [r Hr]. cbn. rewrite Hl. cbn. rewrite Hr.
    by eexists.
  - cbn [for_each] in Hc. unfold mbind, M_bind, bind, ret in Hc.
    by apply (IHcs ix1).
Qed.

(** In a heap without dangling references, a walk whose visits return
    either returns or overflows. *)
Lemma walk_overflows visit finish limit (h : heap) self :
  closed h →
  (∀ n a ix, snd (visit n a ix) = Ret ()) →
  (∀ ix, snd (finish ix) = Ret ()) →
  ∀ a ix, is_Some (h !! a) →
    snd (walk visit finish limit h self a ix) = Ret () ∨
    snd (walk visit finish limit h self a ix) = Raise RecursionError.
Proof.
  intros Hclosed Hvisit Hfinish.
  induction limit as [|limit IH]; intros a ix [n Hn]; [by right|].
  cbn [walk]. unfold mbind, M_bind, bind, expect. rewrite Hn. cbn [ret].
  pose proof (Hvisit n a ix) as Hv.
  destruct (visit n a ix) as [ix1 r1]. cbn in Hv. subst r1.
  assert (∀ c, ChildNode c ∈ DOMNode.children n → is_Some (h !! c)) as Hcs
    by (intros c Hc; exact (Hclosed a n c Hn Hc)).
  assert (snd (for_each (DOMNode.children n)
                 (λ c, match c with
                       | ChildNode c => walk visit finish limit h self c
                       | ChildText _ => ret ()
                       end) ix1) = Ret () ∨
          snd (for_each (DOMNode.children n)
                 (λ c, match c with
                       | ChildNode c => walk visit finish limit h self c
                       | ChildText _ => ret ()
                       end) ix1) = Raise RecursionError) as Hfor.
  { clear -IH Hcs. revert ix1.
    induction (DOMNode.children n) as [|[c|s] cs IHcs]; intros ix1.
    - by left.
    - cbn. unfold_monad.
      destruct (IH c ix1 (Hcs c ltac:(left))) as [Hw|Hw];
        destruct (walk visit finish limit h self c ix1) as [ix3 r3];
        cbn in Hw; subst r3; [|by right].
      apply IHcs. intros c' Hc'. apply Hcs. by right.
    - cbn. unfold_monad. apply IHcs. intros c' Hc'. apply Hcs. by right. }
  destruct (for_each _ _ ix1) as [ix2 r2]. cbn in Hfor.
  destruct Hfor as [-> | ->]; [|by right].
  destruct (decide (a = self)); [|by left].
  left. apply Hfinish.
Qed.

Lemma visit_tag_returns n a ix : snd (visit_tag n a ix) = Ret ().
Proof. done. Qed.

Lemma visit_class_returns n a ix : snd (visit_class n a ix) = Ret ().
Proof.
  unfold visit_class. destruct (truthy _); [|done]. by rewrite for_each_modify.
Qed.

(** X8.  The first tag or class query of a node returns exactly when the
    subtree of the node is explored within the recursion limit. *)
Theorem query_returns_iff_explored
    (limit : nat) (h : heap) (n : addr) (node : DOMNode.t) (name : string) :
  h !! n = Some node →
  (_has_tag_index (DOMNode.index node) = false →
   (∃ r, snd (DOMNode.get_by_tag limit n name h) = Ret r)
   ↔ is_Some (subtree limit h n)) ∧
  (_has_class_index (DOMNode.index node) = false →
   (∃ r, snd (DOMNode.get_by_class_name limit n name h) = Ret r)
   ↔ is_Some (subtree limit h n)).
Proof.
  intros Hn. split; intros Hf; split.
  - intros [r Hr].
    destruct (DOMNode._build_tag_index limit h n n (DOMNode.index node))
      as [ix o] eqn:Hb.
    change (DOMNode.get_by_tag limit n name) with
      (node_query _has_tag_index
         (λ h, DOMNode._build_tag_index limit h n n)
         (λ ix, _tag_to_node_map ix !! name) n) in Hr.
    rewrite (node_query_build _ _ _ n h node ix o Hn Hf Hb) in Hr.
    destruct o as [[]|e]; [|done]. rewrite node_build_tag_walk in Hb.
    by eapply walk_returns_explored.
  - intros [l Hl].
    rewrite (node_get_by_tag_first limit h n node name l Hn Hf Hl).
    by eexists.
  - intros [r Hr].
    destruct (DOMNode._build_class_index limit h n n (DOMNode.index node))
      as [ix o] eqn:Hb.
    change (DOMNode.get_by_class_name limit n name) with
      (node_query _has_class_index
         (λ h, DOMNode._build_class_index limit h n n)
         (λ ix, _class_to_node_map ix !! name) n) in Hr.
    rewrite (node_query_build _ _ _ n h node ix o Hn Hf Hb) in Hr.
    destruct o as [[]|e]; [|done]. rewrite node_build_class_walk in Hb.
    by eapply walk_returns_explored.
  - intros [l Hl].
    rewrite (node_get_by_class_name_first limit h n node name l Hn Hf Hl).
    by eexists.
Qed.

Lemma query_returns_iff_explored_witness :
  (∃ r, snd (DOMNode.get_by_tag 3 0 "p" example_heap) = Ret r) ∧
  ¬ (∃ r, snd (DOMNode.get_by_tag 2 0 "p" example_heap) = Ret r).
Proof.
  split.
  - apply (proj1 (query_returns_iff_explored 3 example_heap 0 _ "p" eq_refl)
             eq_refl). by eexists.
  - intros Hr.
    apply (proj1 (query_returns_iff_explored 2 example_heap 0 _ "p" eq_refl)
             eq_refl) in Hr.
    by destruct Hr.
Defined.

Lemma forest_None (f : addr → option (list addr)) cs c :
  ChildNode c ∈ cs → f c = None → forest f cs = None.
Proof.
  intros Hc Hf. induction cs as [|[c'|s] cs IH]; [by apply elem_of_nil in Hc| |].
  - apply elem_of_cons in Hc as [[= <-]|Hc]; cbn.
    + by rewrite Hf.
    + rewrite (IH Hc). by destruct (f c').
  - apply elem_of_cons in Hc as [[=]|Hc]. cbn. by apply IH.
Qed.

(** A node that is its own child has no finite subtree. *)
Lemma own_child_unexplored (h : heap) n node :
  h !! n = Some node → ChildNode n ∈ DOMNode.children node →
  ∀ limit, subtree limit h n = None.
Proof.
  intros Hn Hc. induction limit as [|limit IH]; [done|].
  cbn. rewrite Hn. cbn. by rewrite (forest_None _ _ n Hc IH).
Qed.

Section RenderFacts.
Variable repr_list : list string → string.

Lemma render_children_explored limit (h : heap) indent cs :
  (∀ a l indent, subtree limit h a = Some l →
     ∃ s, DOMNode._render repr_list limit h a indent = Ret s) →
  is_Some (forest (subtree limit h) cs) →
  ∃ xs, DOMNode.all_of (map (render_child repr_list limit h indent) cs) = Ret xs.
Proof.
  intros IH. induction cs as [|[c|s] cs IHcs]; intros [r Hr].
  - by exists [].
  - cbn in Hr. destruct (subtree limit h c) as [l|] eqn:Hl; [|done].
    cbn in Hr. destruct (forest (subtree limit h) cs) as [r'|]; [|done].
    destruct (IH c l (S indent) Hl) as [x Hx].
    destruct IHcs as [xs Hxs]; [by eexists|].
    exists (x :: xs). cbn. by rewrite Hx, Hxs.
  - cbn in Hr. destruct IHcs as [xs Hxs]; [by eexists|].
    eexists. cbn. by rewrite Hxs.
Qed.

(** [_render] returns on every subtree explored within the limit. *)
Lemma render_explored limit (h : heap) : ∀ a l indent,
  subtree limit h a = Some l →
  ∃ s, DOMNode._render repr_list limit h a indent = Ret s.
Proof.
  induction limit as [|limit IH]; intros a l indent Hl; [done|].
  cbn in Hl. destruct (h !! a) as [n|] eqn:Hn; [|done]. cbn in Hl.
  destruct (forest (subtree limit h) (DOMNode.children n)) as [r|] eqn:Hr;
    [|done].
  destruct (render_children_explored limit h indent (DOMNode.children n) IH)
    as [xs Hxs]; [by eexists|].
  cbn [DOMNode._render]. rewrite Hn.
  change (map _ (DOMNode.children n))
    with (map (render_child repr_list limit h indent) (DOMNode.children n)).
  rewrite Hxs. by eexists.
Qed.

(** In a heap without dangling references [_render] returns when the
    subtree is explored within the limit and overflows when it is not. *)
Lemma render_outcome limit (h : heap) :
  closed h →
  ∀ a indent, is_Some (h !! a) →
    match subtree limit h a with
    | Some _ => ∃ s, DOMNode._render repr_list limit h a indent = Ret s
    | None => DOMNode._render repr_list limit h a indent
              = Raise RecursionError
    end.
Proof.
  intros Hclosed.
  induction limit as [|limit IH]; intros a indent [n Hn]; [done|].
  cbn [subtree DOMNode._render]. rewrite Hn. cbn [mbind option_bind].
  change (map _ (DOMNode.children n))
    with (map (render_child repr_list limit h indent) (DOMNode.children n)).
  assert (∀ c, ChildNode c ∈ DOMNode.children n → is_Some (h !! c)) as Hcs
    by (intros c Hc; exact (Hclosed a n c Hn Hc)).
  assert (match forest (subtree limit h) (DOMNode.children n) with
          | Some _ => ∃ xs, DOMNode.all_of
                              (map (render_child repr_list limit h indent)
                                   (DOMNode.children n)) = Ret xs
          | None => DOMNode.all_of
                      (map (render_child repr_list limit h indent) (DOMNode.children n))
                    = Raise RecursionError
          end) as Hfor.
  { clear -IH Hcs.
    induction (DOMNode.children n) as [|[c|s] cs IHcs].
    - by exists [].
    - specialize (IH c (S indent) (Hcs c ltac:(left))).
      specialize (IHcs ltac:(intros c' Hc'; apply Hcs; by right)).
      cbn. destruct (subtree limit h c) as [l|].
      + destruct IH as [x ->]. cbn.
        destruct (forest (subtree limit h) cs).
        * destruct IHcs as [xs ->]. by eexists.
        * by rewrite IHcs.
      + by rewrite IH.
    - specialize (IHcs ltac:(intros c' Hc'; apply Hcs; by right)).
      cbn. destruct (forest (subtree limit h) cs).
      + destruct IHcs as [xs ->]. by eexists.
      + by rewrite IHcs. }
  destruct (forest (subtree limit h) (DOMNode.children n)); cbn.
  - destruct Hfor as [xs ->]. by eexists.
  - by rewrite Hfor.
Qed.
End RenderFacts.

(** What is not explored within the limit overflows. *)
Lemma unexplored_overflows repr_list limit (h : heap) n node name indent :
  closed h → h !! n = Some node → subtree limit h n = None →
  DOMNode._render repr_list limit h n indent = Raise RecursionError ∧
  (_has_tag_index (DOMNode.index node) = false →
   snd (DOMNode.get_by_tag limit n name h) = Raise RecursionError) ∧
  (_has_class_index (DOMNode.index node) = false →
   snd (DOMNode.get_by_class_name limit n name h) = Raise RecursionError).
Proof.
  intros Hclosed Hn Hl. split; [|split].
  - pose proof (render_outcome repr_list limit h Hclosed n indent
                  ltac:(by eexists)) as Hr.
    by rewrite Hl in Hr.
  - intros Hf.
    destruct (DOMNode._build_tag_index limit h n n (DOMNode.index node))
      as [ix o] eqn:Hb.
    change (DOMNode.get_by_tag limit n name) with
      (node_query _has_tag_index
         (λ h, DOMNode._build_tag_index limit h n n)
         (λ ix, _tag_to_node_map ix !! name) n).
    rewrite (node_query_build _ _ _ n h node ix o Hn Hf Hb). cbn.
    rewrite node_build_tag_walk in Hb.
    destruct (walk_overflows visit_tag (modify (set_has_tag_index true))
                limit h n Hclosed visit_tag_returns ltac:(done) n
                (DOMNode.index node) ltac:(by eexists)) as [Hw|Hw];
      rewrite Hb in Hw; cbn in Hw; subst o; [|done].
    apply walk_returns_explored in Hb as [l Hl']. congruence.
  - intros Hf.
    destruct (DOMNode._build_class_index limit h n n (DOMNode.index node))
      as [ix o] eqn:Hb.
    change (DOMNode.get_by_class_name limit n name) with
      (node_query _has_class_index
         (λ h, DOMNode._build_class_index limit h n n)
         (λ ix, _class_to_node_map ix !! name) n).
    rewrite (node_query_build _ _ _ n h node ix o Hn Hf Hb). cbn.
    rewrite node_build_class_walk in Hb.
    destruct (walk_overflows visit_class (modify (set_has_class_index true))
                limit h n Hclosed visit_class_returns ltac:(done) n
                (DOMNode.index node) ltac:(by eexists)) as [Hw|Hw];
      rewrite Hb in Hw; cbn in Hw; subst o; [|done].
    apply walk_returns_explored in Hb as [l Hl']. congruence.
Qed.

Lemma example_heap_closed : closed example_heap.
Proof.
  intros a n c Ha Hc.
  do 4 (destruct a as [|a];
        [injection Ha as <-; cbn in Hc;
         repeat (apply elem_of_cons in Hc as [Hc|Hc];
                 [try discriminate Hc; injection Hc as ->; by eexists|]);
         by apply elem_of_nil in Hc|]).
  done.
Defined.

(** X9.  In a heap without dangling references, a tree that is not
    explored within the recursion limit, too deep or cyclic, makes
    [_render] and the first tag and class queries raise RecursionError. *)
Theorem unexplored_subtree_raises_RecursionError
    (repr_list : list string → string) (limit : nat) (h : heap) (n : addr)
    (node : DOMNode.t) (name : string) (indent : nat) :
  closed h → h !! n = Some node → subtree limit h n = None →
  DOMNode._render repr_list limit h n indent = Raise RecursionError ∧
  (_has_tag_index (DOMNode.index node) = false →
   snd (DOMNode.get_by_tag limit n name h) = Raise RecursionError) ∧
  (_has_class_index (DOMNode.index node) = false →
   snd (DOMNode.get_by_class_name limit n name h) = Raise RecursionError).
Proof. apply unexplored_overflows. Qed.

Lemma unexplored_subtree_raises_RecursionError_witness :
  DOMNode._render (λ _, "") 2 example_heap 0 0 = Raise RecursionError ∧
  snd (DOMNode.get_by_tag 2 0 "p" example_heap) = Raise RecursionError.
Proof.
  pose proof (unexplored_subtree_raises_RecursionError (λ _, "") 2
                example_heap 0 _ "p" 0 example_heap_closed eq_refl eq_refl)
    as [Hr [Ht _]].
  split; [exact Hr|exact (Ht eq_refl)].
Defined.

Lemma example_loop_closed : closed example_loop.
Proof.
  intros a n c Ha Hc. destruct a as [|a]; [|done].
  injection Ha as <-. cbn in Hc.
  repeat (apply elem_of_cons in Hc as [Hc|Hc];
          [try discriminate Hc; injection Hc as ->; by eexists|]).
  by apply elem_of_nil in Hc.
Defined.

(** X10.  In a heap without dangling references, a node that is its own
    child cannot be traversed: at every recursion limit [_render] raises
    RecursionError, and so do its first tag and class queries. *)
Theorem own_child_raises_RecursionError
    (repr_list : list string → string) (limit : nat) (h : heap) (n : addr)
    (node : DOMNode.t) (name : string) (indent : nat) :
  closed h → h !! n = Some node → ChildNode n ∈ DOMNode.children node →
  DOMNode._render repr_list limit h n indent = Raise RecursionError ∧
  (_has_tag_index (DOMNode.index node) = false →
   snd (DOMNode.get_by_tag limit n name h) = Raise RecursionError) ∧
  (_has_class_index (DOMNode.index node) = false →
   snd (DOMNode.get_by_class_name limit n name h) = Raise RecursionError).
Proof.
  intros Hclosed Hn Hc. apply unexplored_overflows; [done|done|].
  by apply (own_child_unexplored h n node).
Qed.

Lemma own_child_raises_RecursionError_witness :
  DOMNode._render (λ _, "") 50 example_loop 0 0 = Raise RecursionError ∧
  snd (DOMNode.get_by_tag 50 0 "div" example_loop) = Raise RecursionError.
Proof.
  assert (ChildNode 0 ∈ [ChildText "t"; ChildNode 0]) as Hc
    by (right; left).
  pose proof (own_child_raises_RecursionError (λ _, "") 50 example_loop 0 _
                "div" 0 example_loop_closed eq_refl Hc) as [Hr [Ht _]].
  split; [exact Hr|exact (Ht eq_refl)].
Defined.

(** ** Rendering *)

Lemma append_assoc (a b c : string) : (a +:+ b) +:+ c = a +:+ b +:+ c.
Proof.
  induction a as [|x a IH]; [done|].
  change (String x ((a +:+ b) +:+ c) = String x (a +:+ b +:+ c)).
  by rewrite IH.
Qed.

Lemma append_empty (a b : string) : a +:+ b = "" → a = "" ∧ b = "".
Proof. by destruct a. Qed.

Lemma join_cons sep p ps :
  ps ≠ [] → join sep (p :: ps) = p +:+ sep +:+ join sep ps.
Proof. by destruct ps. Qed.

Lemma join_not_empty sep p ps : p ≠ "" → join sep (p :: ps) ≠ "".
Proof.
  intros Hp. destruct ps as [|q ps]; [done|].
  rewrite join_cons by done. by intros [? _]%append_empty.
Qed.

(** X11.  [_render] returns on every subtree explored within the
    recursion limit, and what it returns starts with the indentation, two
    spaces per level, followed by the [__repr__] of the node, its open
    tag. *)
Theorem render_starts_with_repr
    (repr_list : list string → string) (limit : nat) (h : heap) (a : addr)
    (l : list addr) (indent : nat) :
  subtree limit h a = Some l →
  ∃ r rest,
    DOMNode.__repr__ repr_list h a = Ret r ∧
    DOMNode._render repr_list limit h a indent
    = Ret (repeat_str "  " indent +:+ r +:+ rest).
Proof.
  intros Hl. destruct limit as [|limit]; [done|].
  cbn in Hl. destruct (h !! a) as [n|] eqn:Hn; [|done]. cbn in Hl.
  destruct (forest (subtree limit h) (DOMNode.children n)) as [f|] eqn:Hf;
    [|done].
  destruct (render_children_explored repr_list limit h indent
              (DOMNode.children n) (render_explored repr_list limit h))
    as [xs Hxs]; [by eexists|].
  unfold DOMNode.__repr__. cbn [DOMNode._render]. rewrite Hn.
  change (map _ (DOMNode.children n))
    with (map (render_child repr_list limit h indent) (DOMNode.children n))
    at 1.
  rewrite Hxs. cbn [app]. rewrite join_cons by (by destruct xs).
  rewrite append_assoc.
  destruct (DOMNode.attrs n) as [|kv kvs].
  - eexists _, _. split; [done|]. reflexivity.
  - cbn [map length Nat.ltb Nat.leb].
    match goal with
    | |- context [String.eqb ?j ""] =>
        assert (String.eqb j "" = false) as ->
    end.
    { apply String.eqb_neq, join_not_empty.
      intros [_ Heq]%append_empty. done. }
    eexists _, _. split; [done|]. reflexivity.
Qed.

Lemma render_starts_with_repr_witness :
  ∃ r rest,
    DOMNode.__repr__ (λ _, "") example_heap 2 = Ret r ∧
    DOMNode._render (λ _, "") 2 example_heap 2 1
    = Ret (repeat_str "  " 1 +:+ r +:+ rest).
Proof.
  exact (render_starts_with_repr (λ _, "") 2 example_heap 2 [2; 3] 1 eq_refl).
Defined.

Lemma all_of_texts (ts : list string) :
  DOMNode.all_of (map Ret ts) = Ret ts.
Proof. induction ts as [|t ts IH]; [done|]. cbn. by rewrite IH. Qed.

(** X12.  [inner_text] of a node whose children are all text leaves is
    the concatenation of the texts, without indentation or separators, at
    any recursion limit. *)
Theorem inner_text_of_texts
    (repr_list : list string → string) (limit : nat) (h : heap) (a : addr)
    (n : DOMNode.t) (ts : list string) :
  h !! a = Some n →
  DOMNode.children n = ChildText <$> ts →
  DOMNode.inner_text repr_list limit h a = Ret (join "" ts).
Proof.
  intros Hn Hts. unfold DOMNode.inner_text. rewrite Hn, Hts.
  rewrite map_map. cbn. by rewrite all_of_texts.
Qed.

Lemma inner_text_of_texts_witness :
  DOMNode.inner_text (λ _, "") 0
    [DOMNode.__init__ "p" [] (Some [ChildText "Hello, "; ChildText "world"])] 0
  = Ret "Hello, world".
Proof.
  exact (inner_text_of_texts (λ _, "") 0
           [DOMNode.__init__ "p" []
              (Some [ChildText "Hello, "; ChildText "world"])]
           0 _ ["Hello, "; "world"] eq_refl eq_refl).
Defined.

(** ** The attributes of a start tag *)

Lemma dict_get_set {V} (k k' : string) (v : V) (d : dict V) :
  dict_get k (dict_set k' v d) =
  if String.eqb k k' then Some v else dict_get k d.
Proof.
  induction d as [|[k0 v0] d IH]; cbn.
  - by destruct (String.eqb k k').
  - destruct (String.eqb k' k0) eqn:Hk0; cbn.
    + apply String.eqb_eq in Hk0 as <-. by destruct (String.eqb k k').
    + rewrite IH. destruct (String.eqb k k0) eqn:Hk; [|done].
      apply String.eqb_eq in Hk as ->.
      destruct (String.eqb k0 k') eqn:Hk'; [|done].
      apply String.eqb_eq in Hk' as ->. by rewrite String.eqb_refl in Hk0.
Qed.

Lemma dict_set_keys {V} (k : string) (v : V) (d : dict V) :
  fst <$> dict_set k v d =
  if bool_decide (k ∈ fst <$> d) then fst <$> d else (fst <$> d) ++ [k].
Proof.
  induction d as [|[k0 v0] d IH]; [done|]. cbn.
  destruct (String.eqb k k0) eqn:Hk0; cbn.
  - apply String.eqb_eq in Hk0 as <-.
    by rewrite bool_decide_true by left.
  - apply String.eqb_neq in Hk0. rewrite IH.
    destruct (bool_decide (k ∈ fst <$> d)) eqn:Hin.
    + apply bool_decide_eq_true in Hin.
      by rewrite bool_decide_true by (by right).
    + apply bool_decide_eq_false in Hin.
      rewrite bool_decide_false; [done|].
      by intros [?|?]%elem_of_cons.
Qed.

Lemma dict_set_NoDup {V} (k : string) (v : V) (d : dict V) :
  NoDup (fst <$> d) → NoDup (fst <$> dict_set k v d).
Proof.
  intros Hd. rewrite dict_set_keys. case_bool_decide as Hin; [done|].
  apply NoDup_app. split; [done|]. split; [|apply NoDup_singleton].
  intros x Hx ->%list_elem_of_singleton. done.
Qed.

Lemma dom_attrs_fold key (attrs : list (string * option string)) : ∀ d,
  dict_get key
    (foldl (λ d kv, dict_set (fst kv) (from_option PyStr PyNone (snd kv)) d)
           d attrs)
  = match last_value key attrs with
    | Some v => Some v
    | None => dict_get key d
    end.
Proof.
  unfold last_value.
  induction attrs as [|[k v] attrs IH]; intros d; [done|].
  cbn [foldl fst snd]. rewrite IH, filter_cons. cbn [fst].
  destruct (decide (k = key)) as [->|Hne].
  - rewrite last_cons. destruct (last _); [done|]. cbn.
    by rewrite dict_get_set, String.eqb_refl.
  - destruct (last _); [done|]. cbn. rewrite dict_get_set.
    by assert (String.eqb key k = false) as ->
      by (by apply String.eqb_neq).
Qed.

Lemma dom_attrs_NoDup (attrs : list (string * option string)) :
  NoDup (fst <$> dom_attrs_of attrs).
Proof.
  unfold dom_attrs_of. generalize (NoDup_nil_2 (A := string)).
  change (@nil string) with (fst <$> (@nil (string * obj))).
  generalize (@nil (string * obj)).
  induction attrs as [|[k v] attrs IH]; intros d Hd; [done|].
  cbn [foldl]. apply IH. by apply dict_set_NoDup.
Qed.

(** X13.  On a stack with a top, [handle_starttag] creates the node at a
    fresh address, with the tag, no children and the attributes of the
    start tag, each name once and with the value of its last occurrence,
    and appends the node to the children of the top; it does so before it
    raises. *)
Theorem starttag_creates_the_node
    (p : _CustomHTMLParser.t) (tag : string)
    (attrs : list (string * option string)) (top : addr) (n : DOMNode.t) :
  last (node_stack p) = Some top →
  nodes p !! top = Some n →
  let p1 := fst (handle_starttag tag attrs p) in
  let new := length (nodes p) in
  (∃ dom, nodes p1 !! new = Some dom ∧
          DOMNode.tag dom = tag ∧ DOMNode.children dom = [] ∧
          NoDup (fst <$> DOMNode.attrs dom) ∧
          ∀ key, dict_get key (DOMNode.attrs dom) = last_value key attrs) ∧
  (∃ n1, nodes p1 !! top = Some n1 ∧
         DOMNode.children n1 = DOMNode.children n ++ [ChildNode new]) ∧
  node_stack p1 = node_stack p.
Proof.
  intros Htop Hn p1 new. unfold p1.
  rewrite (handle_starttag_eq p tag attrs top n Htop Hn). cbn [fst].
  pose proof (lookup_lt_Some _ _ _ Hn) as Hlt.
  unfold nodes_after_starttag. cbn [nodes set_nodes]. split; [|split].
  - exists (DOMNode.__init__ tag (dom_attrs_of attrs) None).
    split.
    { rewrite list_lookup_insert_ne by (unfold new; lia).
      by apply list_lookup_middle. }
    split; [done|]. split; [done|]. split; [apply dom_attrs_NoDup|].
    intros key. cbn. unfold dom_attrs_of. rewrite dom_attrs_fold.
    by destruct (last_value key attrs).
  - eexists. split.
    { apply list_lookup_insert_eq. rewrite length_app. lia. }
    done.
  - by destruct p.
Qed.

Lemma starttag_creates_the_node_witness :
  ∃ dom,
    nodes (fst (handle_starttag "a" [("href", Some "x"); ("id", None);
                                     ("href", Some "y")] example_parser))
      !! 2 = Some dom ∧
    dict_get "href" (DOMNode.attrs dom) = Some (PyStr "y") ∧
    dict_get "id" (DOMNode.attrs dom) = Some PyNone.
Proof.
  destruct (starttag_creates_the_node example_parser "a"
              [("href", Some "x"); ("id", None); ("href", Some "y")] 1 _
              eq_refl eq_refl) as [(dom & Hdom & _ & _ & _ & Hget) _].
  exists dom. split; [exact Hdom|].
  split; [exact (Hget "href")|exact (Hget "id")].
Defined.

(** ** The title *)

(** No call replaces a recorded title. *)
Lemma handle_keeps_title ev p t :
  title p = Some t → title (fst (handle ev p)) = Some t.
Proof.
  intros Ht.
  destruct ev as [tag attrs|tag|data|data|name|name|data]; cbn [handle];
    try done.
  - unfold handle_starttag, top_of_stack, on_heap, DOMNode.new,
      DOMNode.append_child, DOMNode.deref, global.
    unfold_monad. unfold ret, raise. cbn. repeat case_match; simplify_eq; by cbn.
  - unfold handle_endtag, top_of_stack, on_heap, DOMNode.deref.
    unfold_monad. unfold ret, raise. cbn. repeat case_match; simplify_eq; by cbn.
  - unfold handle_data, top_of_stack, on_heap, DOMNode.append_child,
      DOMNode.deref.
    unfold_monad. unfold ret, raise. rewrite Ht. cbn.
    repeat case_match; simplify_eq; cbn; try done;
      match goal with
      | H : _ && false = true |- _ => by rewrite andb_false_r in H
      end.
Qed.

(** X14.  The title is written once: from any state of the parser in
    which a title is recorded, no sequence of calls changes it; and a text
    that arrives while the top of the stack is a [title] element and no
    title is recorded becomes the title. *)
Theorem title_is_written_once
    (p : _CustomHTMLParser.t) (source : list event) (data : string) :
  (∀ t, title p = Some t → title (fst (feed source p)) = Some t) ∧
  (∀ top n, last (node_stack p) = Some top → nodes p !! top = Some n →
            DOMNode.tag n = "title" → title p = None →
            title (fst (handle_data data p)) = Some data).
Proof.
  split.
  - intros t. revert p. induction source as [|ev source IH]; intros p Ht;
      [done|].
    pose proof (handle_keeps_title ev p t Ht) as H1.
    unfold feed in *. cbn [for_each]. unfold_monad.
    destruct (handle ev p) as [p1 [[]|e]]; [|done]. by apply IH.
  - intros top n Htop Hn Htag Ht.
    rewrite (handle_data_eq p data top n Htop Hn), Htag, Ht. done.
Qed.

Lemma title_is_written_once_witness :
  title (fst (feed [Data "Second"; EndTag "title"; Data "x"]
                (example_title_parser (Some "First")))) = Some "First" ∧
  title (fst (handle_data "First" (example_title_parser None)))
    = Some "First".
Proof.
  split.
  - exact (proj1 (title_is_written_once (example_title_parser (Some "First"))
                    [Data "Second"; EndTag "title"; Data "x"] "")
             "First" eq_refl).
  - exact (proj2 (title_is_written_once (example_title_parser None) []
                    "First") 1 _ eq_refl eq_refl eq_refl eq_refl).
Defined.

(** ** What a parse leaves in the heap *)

Lemma insert_root (h : heap) (x y : DOMNode.t) (tl : heap) :
  <[length h := x]> (h ++ y :: tl) = h ++ x :: tl.
Proof.
  rewrite insert_app_r_alt by done. by rewrite Nat.sub_diag.
Qed.

Lemma feed_parser_with (h : heap) src : ∀ source cs,
  Forall lowercased source →
  feed source (parser_with h src cs) =
  match first_start_tag source with
  | None => (parser_with h src (cs ++ leading_children source), Ret ())
  | Some (tag, attrs) =>
      (set_nodes
         (h ++ [root_with (cs ++ leading_children source
                              ++ [ChildNode (S (length h))]);
                DOMNode.__init__ tag (dom_attrs_of attrs) None])
         (parser_with h src cs),
       Raise NameError)
  end.
Proof.
  assert (∀ cs, last (node_stack (parser_with h src cs)) = Some (length h))
    as Htop by done.
  assert (∀ cs, nodes (parser_with h src cs) !! length h
                = Some (root_with cs)) as Hroot
    by (intros cs; apply list_lookup_middle; done).
  intros source. induction source as [|ev source IH]; intros cs Hsrc.
  - cbn. by rewrite app_nil_r.
  - apply Forall_cons in Hsrc as [Hev Hsrc].
    unfold feed in *. cbn [for_each]. unfold mbind, M_bind, bind.
    destruct ev as [tag attrs|tag|data|data|name|name|data];
      cbn [handle first_start_tag leading_children];
      try (exact (IH cs Hsrc)).
    + rewrite (handle_starttag_eq _ tag attrs _ _ (Htop cs) (Hroot cs)).
      unfold nodes_after_starttag. cbn [nodes parser_with].
      rewrite <- app_assoc. cbn [app]. rewrite insert_root.
      rewrite length_app, Nat.add_1_r. reflexivity.
    + destruct Hev as [raw ->].
      rewrite (handle_endtag_eq _ (lower raw) _ _ (Htop cs) (Hroot cs)).
      assert (String.eqb (lower raw) (DOMNode.tag (root_with cs)) = false)
        as -> by (apply String.eqb_neq, lower_not_root).
      exact (IH cs Hsrc).
    + rewrite (handle_data_eq _ data _ _ (Htop cs) (Hroot cs)).
      cbn [nodes parser_with]. rewrite insert_root.
      change (for_each source handle (set_nodes _ _))
        with (for_each source handle
                (parser_with h src (cs ++ [ChildText data]))).
      rewrite (IH (cs ++ [ChildText data]) Hsrc).
      destruct (first_start_tag source) as [[tag attrs]|];
        by rewrite <- !app_assoc.
Qed.

Lemma parse_document_eq h source :
  Forall lowercased source →
  parse_document source h =
  match first_start_tag source with
  | None =>
      (h ++ [root_with (leading_children source)],
       Ret (DOMDocument.__init__ (length h) None))
  | Some (tag, attrs) =>
      (h ++ [root_with (leading_children source ++ [ChildNode (S (length h))]);
             DOMNode.__init__ tag (dom_attrs_of attrs) None],
       Raise NameError)
  end.
Proof.
  intros Hsrc. unfold parse_document.
  pose proof (accumulate_eq h source) as Hacc. cbv zeta in Hacc.
  rewrite Hacc. clear Hacc.
  change (__init__ h source) with (parser_with h source []).
  rewrite (feed_parser_with h source source [] Hsrc).
  destruct (first_start_tag source) as [[tag attrs]|]; [done|].
  cbn. by rewrite decide_True by done.
Qed.

(** A reading that the tokenizer completes is a reading that stops with
    no exception. *)
Lemma accumulate_stopped_None p : accumulate_stopped None p = accumulate p.
Proof.
  unfold accumulate_stopped, accumulate, feed_stopped. unfold_monad.
  by destruct (feed (source p) p) as [p1 [[]|e]].
Qed.

Lemma parse_document_stopped_None source h :
  parse_document_stopped source None h = parse_document source h.
Proof.
  unfold parse_document_stopped, parse_document.
  by rewrite accumulate_stopped_None.
Qed.

(** X15.  What [parse_document] does, when the names of the end tags come
    lowercased.  With a start tag among the calls it raises NameError,
    leaving in the heap the root with the texts that come before the first
    start tag and the node of that tag, which has the attributes of the tag
    and no children.  Without one, the root has the texts of the calls as
    its children, in order, and nothing else, and the outcome is the
    tokenizer's: the exception it raises itself, if it gives up on the
    text, and otherwise a document without a title.  The objects that
    were in the heap are not touched.  [parse_document] is the case of a
    tokenizer that raises nothing itself. *)
Theorem parse_document_result
    (h : heap) (source : list event) (stop : option exn) :
  Forall lowercased source →
  parse_document_stopped source stop h =
  match first_start_tag source with
  | None =>
      (h ++ [DOMNode.__init__ "DOCUMENT_ROOT" []
               (Some (leading_children source))],
       match stop with
       | Some e => Raise e
       | None => Ret (DOMDocument.__init__ (length h) None)
       end)
  | Some (tag, attrs) =>
      (h ++ [DOMNode.__init__ "DOCUMENT_ROOT" []
               (Some (leading_children source ++ [ChildNode (S (length h))]));
             DOMNode.__init__ tag (dom_attrs_of attrs) None],
       Raise NameError)
  end ∧
  parse_document source h = parse_document_stopped source None h.
Proof.
  intros Hsrc. split; [|by rewrite parse_document_stopped_None].
  unfold parse_document_stopped, accumulate_stopped, feed_stopped.
  unfold mbind, M_bind, bind, get.
  change (_CustomHTMLParser.source (__init__ h source)) with source.
  change (__init__ h source) with (parser_with h source []).
  rewrite (feed_parser_with h source source [] Hsrc).
  destruct (first_start_tag source) as [[tag attrs]|]; [done|].
  destruct stop as [e|]; [done|].
  cbn. by rewrite decide_True by done.
Qed.

Lemma example_markup_lowercased : Forall lowercased example_markup.
Proof. repeat constructor. by exists "P". Defined.

Lemma parse_document_result_witness :
  parse_document example_markup [] =
  ([DOMNode.__init__ "DOCUMENT_ROOT" []
      (Some [ChildText "a"; ChildText "b"; ChildNode 1]);
    DOMNode.__init__ "i" [("id", PyStr "x")] None],
   Raise NameError) ∧
  parse_document example_source [] =
  ([DOMNode.__init__ "DOCUMENT_ROOT" [] (Some [ChildText "a"])],
   Ret (DOMDocument.__init__ 0 None)) ∧
  parse_document_stopped example_source (Some AssertionError) [] =
  ([DOMNode.__init__ "DOCUMENT_ROOT" [] (Some [ChildText "a"])],
   Raise AssertionError) ∧
  parse_document_stopped [] (Some AssertionError) [] =
  ([DOMNode.__init__ "DOCUMENT_ROOT" [] (Some [])], Raise AssertionError).
Proof.
  split; [|split; [|split]].
  - exact (eq_trans
             (proj2 (parse_document_result [] example_markup None
                       example_markup_lowercased))
             (proj1 (parse_document_result [] example_markup None
                       example_markup_lowercased))).
  - exact (eq_trans
             (proj2 (parse_document_result [] example_source None
                       example_source_lowercased))
             (proj1 (parse_document_result [] example_source None
                       example_source_lowercased))).
  - exact (proj1 (parse_document_result [] example_source
                    (Some AssertionError) example_source_lowercased)).
  - exact (proj1 (parse_document_result [] [] (Some AssertionError)
                    (Forall_nil_2 _))).
Defined.

(** ** Querying a parsed document *)

Lemma forest_leading_children f source :
  forest f (leading_children source) = Some [].
Proof.
  induction source as [|[] source IH]; done.
Qed.

(** X16.  A document that [parse_document] returns holds one element, the
    root: at a recursion limit of one call or more, its [get_by_tag]
    finds the root under [DOCUMENT_ROOT] and nothing under any other tag,
    and its [get_by_id] and [get_by_class_name] find nothing. *)
Theorem parsed_document_holds_the_root
    (limit : nat) (h h1 : heap) (source : list event) (d : DOMDocument.t)
    (name : string) :
  Forall lowercased source →
  parse_document source h = (h1, Ret d) →
  snd (DOMDocument.get_by_tag (S limit) h1 name d) =
    Ret (if decide (name = "DOCUMENT_ROOT") then Some [length h] else None) ∧
  snd (DOMDocument.get_by_id (S limit) h1 name d) = Ret None ∧
  snd (DOMDocument.get_by_class_name (S limit) h1 name d) = Ret None.
Proof.
  intros Hsrc Hparse. rewrite (parse_document_eq h source Hsrc) in Hparse.
  destruct (first_start_tag source) as [[tag attrs]|]; [done|].
  injection Hparse as <- <-.
  set (h1 := h ++ [root_with (leading_children source)]).
  assert (h1 !! length h = Some (root_with (leading_children source))) as Hroot
    by (by apply list_lookup_middle).
  assert (subtree (S limit) h1 (length h) = Some [length h]) as Hl.
  { cbn. rewrite Hroot. cbn. by rewrite forest_leading_children. }
  split; [|split].
  - rewrite (doc_get_by_tag_first (S limit) h1
               (DOMDocument.__init__ (length h) None) name [length h]
               eq_refl Hl).
    cbn [DOMDocument.index DOMDocument.__init__ no_indexes _tag_to_node_map].
    rewrite lookup_filed_empty, under_tag_entries.
    rewrite filter_cons, filter_nil. unfold tag_at. rewrite Hroot. cbn.
    destruct (decide (name = "DOCUMENT_ROOT")) as [->|Hne].
    + by rewrite decide_True.
    + rewrite decide_False; [done|]. by intros [= <-].
  - rewrite (doc_get_by_id_first (S limit) h1
               (DOMDocument.__init__ (length h) None) name [length h]
               eq_refl Hl).
    + cbn. unfold vis_id, attr_at. by rewrite Hroot.
    + intros a [->|Ha]%elem_of_cons; [|by apply elem_of_nil in Ha].
      unfold attr_at. by rewrite Hroot.
  - rewrite (doc_get_by_class_name_first (S limit) h1
               (DOMDocument.__init__ (length h) None) name [length h]
               eq_refl Hl).
    cbn [DOMDocument.index DOMDocument.__init__ no_indexes
         _class_to_node_map].
    rewrite lookup_filed_empty, under_class_entries. cbn.
    unfold occurrences, tokens_at, attr_at. by rewrite Hroot.
Qed.

Lemma parsed_document_holds_the_root_witness :
  let h1 := fst (parse_document example_source []) in
  let d := DOMDocument.__init__ 0 None in
  snd (DOMDocument.get_by_tag 1 h1 "DOCUMENT_ROOT" d) = Ret (Some [0]) ∧
  snd (DOMDocument.get_by_tag 1 h1 "p" d) = Ret None.
Proof.
  split.
  - exact (proj1 (parsed_document_holds_the_root 0 [] _ example_source _
                    "DOCUMENT_ROOT" example_source_lowercased eq_refl)).
  - exact (proj1 (parsed_document_holds_the_root 0 [] _ example_source _
                    "p" example_source_lowercased eq_refl)).
Defined.

(** ** The close tag *)

Lemma join_snoc sep xs y :
  xs ≠ [] → join sep (xs ++ [y]) = join sep xs +:+ sep +:+ y.
Proof.
  induction xs as [|x xs IH]; [done|]. intros _.
  destruct xs as [|x' xs]; [done|].
  change ((x :: x' :: xs) ++ [y]) with (x :: (x' :: xs) ++ [y]).
  rewrite join_cons by done. rewrite IH by done.
  rewrite (join_cons sep x (x' :: xs)) by done.
  by rewrite !append_assoc.
Qed.

(** X17.  What [_render] returns on a subtree explored within the
    recursion limit ends with a line of its own that holds the close tag
    of the node at the indentation of the open tag. *)
Theorem render_ends_with_close_tag
    (repr_list : list string → string) (limit : nat) (h : heap) (a : addr)
    (n : DOMNode.t) (l : list addr) (indent : nat) :
  h !! a = Some n →
  subtree limit h a = Some l →
  ∃ body,
    DOMNode._render repr_list limit h a indent
    = Ret (body +:+ newline +:+ repeat_str "  " indent
                +:+ "</" +:+ DOMNode.tag n +:+ ">").
Proof.
  intros Hn Hl. destruct limit as [|limit]; [done|].
  cbn in Hl. rewrite Hn in Hl. cbn in Hl.
  destruct (forest (subtree limit h) (DOMNode.children n)) as [f|] eqn:Hf;
    [|done].
  destruct (render_children_explored repr_list limit h indent
              (DOMNode.children n) (render_explored repr_list limit h))
    as [xs Hxs]; [by eexists|].
  cbn [DOMNode._render]. rewrite Hn.
  change (map _ (DOMNode.children n))
    with (map (render_child repr_list limit h indent) (DOMNode.children n)).
  rewrite Hxs.
  change ([?x] ++ xs ++ [?y]) with ((x :: xs) ++ [y]).
  rewrite join_snoc by done. eexists. reflexivity.
Qed.

Lemma render_ends_with_close_tag_witness :
  ∃ body,
    DOMNode._render (λ _, "") 3 example_heap 0 0
    = Ret (body +:+ newline +:+ repeat_str "  " 0 +:+ "</" +:+ "div" +:+ ">").
Proof.
  exact (render_ends_with_close_tag (λ _, "") 3 example_heap 0 _
           [0; 1; 2; 3] 0 eq_refl eq_refl).
Defined.

(** ** Class names with whitespace *)



